(** * Entis: sparse-set component stores, entity recycling and queries

    A shallow embedding of [sparse_set.h] and [registry.h] (with the
    constants of [config.h] and the error enumeration of [error.h]),
    followed by the properties of the specification.

    Conventions of the embedding.
    - [id_t] is [uint32_t]; ids are modelled as [N] and the conversion
      from [size_t] to [id_t] is written out ([to_id]).
    - A [std::vector] is a list; [size], [vlook], [vget] and [vset]
      index it by ids.  [operator[]] out of range is undefined in the
      source: the model reads the inhabitant and ignores the write; the
      theorems are stated on states where every access is in range.
    - [std::fill] is given a range of offsets.  [fill] gives the cells of
      the range that belong to the vector and counts the cells of the
      range that lie past [end()] ([overrun]).  Writing past [end()] is
      undefined: [rezise], and [bind] and [registry_bind] through it,
      have a result only when there is no such cell ([None]
      otherwise).
    - Component values of every type live in one universe [V]; the
      registry's [unordered_map] from type names to stores is a [gmap]
      from strings. *)

From stdpp Require Import base numbers option list sorting gmap strings.

Local Open Scope N_scope.

(** ** config.h *)

Abbreviation id_t := N (only parsing).

Definition MAX_ID : id_t := 4294967295.

(** Conversion of a [size_t] to an [id_t]: the low 32 bits. *)
Definition to_id (n : N) : id_t := n mod 4294967296.

(** ** error.h *)

Inductive BindError : Type :=
  | INVALID_KEY
  | DEAD_ENTITY.

Definition BindResult : Type := option BindError.

(** ** std::vector, indexed by ids *)

Section Vector.
Context {A : Type}.

Definition size (v : list A) : N := N.of_nat (length v).

Definition vlook (v : list A) (i : N) : option A := v !! N.to_nat i.

Definition vset (v : list A) (i : N) (x : A) : list A :=
  <[N.to_nat i := x]> v.

(** [std::swap(v[i], v[j])]. *)
Definition vswap (v : list A) (i j : N) : list A :=
  match vlook v i, vlook v j with
  | Some x, Some y => vset (vset v i y) j x
  | _, _ => v
  end.

(** [v.back()], when there is one. *)
Definition back (v : list A) : option A := vlook v (size v - 1).

Definition pop_back (v : list A) : list A := take (pred (length v)) v.
End Vector.

Definition vget (v : list N) (i : N) : N := v !!! N.to_nat i.

(** [std::fill(v.begin() + first, v.begin() + last, x)]: the cells of the
    vector inside the range, and the number of cells of the range past
    the end of the vector. *)
Record Fill : Type := mkFill { filled : list N; overrun : N }.

Definition fill (v : list N) (first last : N) (x : N) : Fill :=
  {| filled := imap (λ i y, if (first <=? N.of_nat i) && (N.of_nat i <? last)
                            then x else y) v;
     overrun := last - N.max first (size v) |}.

(** ** sparse_set.h *)

Section SparseSet.
Context {T : Type}.

Record SparseSet : Type := mkSparseSet {
  sparse_ : list id_t;
  dense_ : list id_t;
  data_ : list T
}.

Definition empty_set : SparseSet :=
  {| sparse_ := []; dense_ := []; data_ := [] |}.

Definition out_of_bounds (s : SparseSet) (key : id_t) : bool :=
  size (sparse_ s) <=? key.

Definition is_null_key (key : id_t) : bool := key =? MAX_ID.

(** [||] does not read [sparse_[key]] when the key is out of bounds. *)
Definition has_data (s : SparseSet) (key : id_t) : bool :=
  if out_of_bounds s key then false
  else if is_null_key (vget (sparse_ s) key) then false
  else true.

Definition get_data (s : SparseSet) (key : id_t) : option T :=
  if has_data s key then vlook (data_ s) (vget (sparse_ s) key) else None.

(** The [resize] and the [fill] of [rezise].  It is called only when
    [out_of_bounds s key], so [key - size] does not wrap.  The range of
    the [fill] ends [to] cells past [end()]. *)
Definition rezise_fill (s : SparseSet) (key : id_t) : Fill :=
  let from := size (sparse_ s) in
  let to := key - size (sparse_ s) in
  let grown := resize (N.to_nat (to_id (key + 1))) 0 (sparse_ s) in
  fill grown from (size grown + to) MAX_ID.

(** [rezise] has a result when its [fill] stays inside the vector; a
    [fill] that writes past [end()] is undefined. *)
Definition rezise (s : SparseSet) (key : id_t) : option (SparseSet * N) :=
  let f := rezise_fill s key in
  if overrun f =? 0 then
    Some ({| sparse_ := filled f;
             dense_ := dense_ s;
             data_ := data_ s |},
          key - size (sparse_ s))
  else None.

(** [None]: the call runs into the undefined [fill] of [rezise]. *)
Definition bind (s : SparseSet) (key : id_t) (v : T)
  : option (SparseSet * BindResult) :=
  if is_null_key key then Some (s, Some INVALID_KEY)
  else
    s1 ← (if out_of_bounds s key then fst <$> rezise s key else Some s);
    if negb (has_data s1 key) then
      Some ({| sparse_ := vset (sparse_ s1) key (to_id (size (dense_ s1)));
               dense_ := dense_ s1 ++ [key];
               data_ := data_ s1 ++ [v] |}, None)
    else
      Some ({| sparse_ := sparse_ s1;
               dense_ := dense_ s1;
               data_ := vset (data_ s1) (vget (sparse_ s1) key) v |}, None).

(** Cells written past the end of the sparse vector by [bind]. *)
Definition bind_overrun (s : SparseSet) (key : id_t) : N :=
  if is_null_key key then 0
  else if out_of_bounds s key then overrun (rezise_fill s key) else 0.

Definition unbind (s : SparseSet) (key : id_t) : SparseSet * option T :=
  if has_data s key then
    let packed_index := vget (sparse_ s) key in
    let sparse1 := vset (sparse_ s) (default 0 (back (dense_ s))) packed_index in
    let sparse2 := vset sparse1 key MAX_ID in
    let dense1 := vswap (dense_ s) packed_index (size (dense_ s) - 1) in
    let data1 := vswap (data_ s) packed_index (size (data_ s) - 1) in
    ({| sparse_ := sparse2;
        dense_ := pop_back dense1;
        data_ := pop_back data1 |}, back data1)
  else (s, None).

Definition delete_component (s : SparseSet) (entity : id_t) : SparseSet :=
  fst (unbind s entity).
End SparseSet.

Arguments SparseSet : clear implicits.

(** ** The sparse-set invariant *)

Section SparseSetInvariant.
Context {T : Type}.
Implicit Types (s : SparseSet T) (key k i : N) (v : T).

(** [sparse_] and [dense_] are inverse to each other, [data_] runs
    parallel to [dense_], and every index of [sparse_] is an id other
    than [MAX_ID]. *)
Record SparseSet_wf s : Prop := {
  wf_len : length (dense_ s) = length (data_ s);
  wf_bound : size (sparse_ s) ≤ MAX_ID;
  wf_dense : ∀ i k, vlook (dense_ s) i = Some k → vlook (sparse_ s) k = Some i;
  wf_sparse : ∀ k i,
    vlook (sparse_ s) k = Some i → i ≠ MAX_ID → vlook (dense_ s) i = Some k
}.

(** The state in which [bind] looks the key up: after [rezise] when
    the key was out of bounds. *)
Definition grown s key : option (SparseSet T) :=
  if out_of_bounds s key then fst <$> rezise s key else Some s.

(** The state that [bind] leaves when the key is not [MAX_ID] and
    [s1] is the state it looks the key up in. *)
Definition bound s1 key v : SparseSet T :=
  if negb (has_data s1 key) then
    {| sparse_ := vset (sparse_ s1) key (to_id (size (dense_ s1)));
       dense_ := dense_ s1 ++ [key];
       data_ := data_ s1 ++ [v] |}
  else
    {| sparse_ := sparse_ s1;
       dense_ := dense_ s1;
       data_ := vset (data_ s1) (vget (sparse_ s1) key) v |}.
End SparseSetInvariant.

(** ** Sequences of operations on one sparse set *)

Section Operations.
Context {T : Type}.

Inductive set_op : Type :=
  | OpBind (e : id_t) (v : T)
  | OpUnbind (e : id_t).

Definition op_key (o : set_op) : id_t :=
  match o with OpBind e _ => e | OpUnbind e => e end.

Definition apply_op (s : SparseSet T) (o : set_op) : option (SparseSet T) :=
  match o with
  | OpBind e v => fst <$> bind s e v
  | OpUnbind e => Some (fst (unbind s e))
  end.

(** The operations in turn, as long as each has a result. *)
Fixpoint run_ops_from (s : SparseSet T) (ops : list set_op)
  : option (SparseSet T) :=
  match ops with
  | [] => Some s
  | o :: ops' => s' ← apply_op s o; run_ops_from s' ops'
  end.

Definition run_ops (ops : list set_op) : option (SparseSet T) :=
  run_ops_from empty_set ops.

(** The key of a [bind] is inside the sparse array, the next key
    after its end, or [MAX_ID]: the calls whose [rezise] stays inside
    the array. *)
Definition key_in_reach (s : SparseSet T) (o : set_op) : Prop :=
  match o with
  | OpBind e _ => e ≤ size (sparse_ s) ∨ e = MAX_ID
  | OpUnbind _ => True
  end.

(** Every operation of the sequence has its key in reach in the state
    it is applied to. *)
Fixpoint keys_in_reach (s : SparseSet T) (ops : list set_op) : Prop :=
  match ops with
  | [] => True
  | o :: ops' =>
      key_in_reach s o
      ∧ ∀ s', apply_op s o = Some s' → keys_in_reach s' ops'
  end.

(** The invariants of testable property 1 and of the data model, as
    the specification words them. *)
Definition sparse_dense_inverse (s : SparseSet T) : Prop :=
  (∀ i, i < size (dense_ s) →
        ∃ k, vlook (dense_ s) i = Some k ∧ vlook (sparse_ s) k = Some i)
  ∧ (∀ k i, vlook (sparse_ s) k = Some i → i ≠ MAX_ID →
            vlook (dense_ s) i = Some k)
  ∧ size (dense_ s) = size (data_ s)
  ∧ NoDup (dense_ s).

(** The reference algorithm of the specification for [unbind]: swap
    [dense[i]] with [dense[last]] and [data[i]] with [data[last]], set
    [sparse[dense[i]] = i], set [sparse[key] = NULL_ID], pop both
    tails and return the popped data element. *)
Definition unbind_ref (s : SparseSet T) (key : id_t) : SparseSet T * option T :=
  if has_data s key then
    let i := vget (sparse_ s) key in
    let last := size (dense_ s) - 1 in
    let dense1 := vswap (dense_ s) i last in
    let data1 := vswap (data_ s) i last in
    let sparse1 := vset (sparse_ s) (default 0 (vlook dense1 i)) i in
    let sparse2 := vset sparse1 key MAX_ID in
    ({| sparse_ := sparse2;
        dense_ := pop_back dense1;
        data_ := pop_back data1 |}, back data1)
  else (s, None).
End Operations.

Arguments set_op : clear implicits.

(** ** std::set_difference

    The merge of the standard library, on two ranges that it expects
    sorted: an element of the first range is copied when it is smaller
    than the head of the second, dropped when equal to it (both ranges
    advance), and the second range advances alone otherwise. *)
Fixpoint set_difference (l1 : list id_t) : list id_t → list id_t :=
  match l1 with
  | [] => λ _, []
  | x :: l1' =>
      fix inner (l2 : list id_t) : list id_t :=
        match l2 with
        | [] => x :: l1'
        | y :: l2' =>
            if x <? y then x :: set_difference l1' l2
            else if y <? x then inner l2'
            else set_difference l1' l2'
        end
  end.

(** ** registry.h *)

Section Registry.
Context {V : Type}.

(** [component_managers_] maps [typeid(T).name()] to the store of the
    components of type [T]. *)
Record Registry : Type := mkRegistry {
  current_ : id_t;
  entities_ : list id_t;
  component_managers_ : gmap string (SparseSet V)
}.

Definition empty_registry : Registry :=
  {| current_ := MAX_ID; entities_ := []; component_managers_ := ∅ |}.

Definition make_new_entity (r : Registry) : id_t * Registry :=
  let new_entity := to_id (size (entities_ r)) in
  (new_entity,
   {| current_ := current_ r;
      entities_ := entities_ r ++ [new_entity];
      component_managers_ := component_managers_ r |}).

Definition recycle_entity (r : Registry) : id_t * Registry :=
  let recycled_entity := current_ r in
  (recycled_entity,
   {| current_ := vget (entities_ r) recycled_entity;
      entities_ := vset (entities_ r) recycled_entity recycled_entity;
      component_managers_ := component_managers_ r |}).

Definition make_entity (r : Registry) : id_t * Registry :=
  if current_ r =? MAX_ID then make_new_entity r else recycle_entity r.

(** [&&] does not read [entities_[entity]] out of range. *)
Definition is_alive (r : Registry) (entity : id_t) : bool :=
  if entity <? size (entities_ r)
  then vget (entities_ r) entity =? entity
  else false.

Definition mark_as_death (r : Registry) (entity : id_t) : Registry :=
  {| current_ := entity;
     entities_ := vset (entities_ r) entity (current_ r);
     component_managers_ := component_managers_ r |}.

Definition delete_all_components (r : Registry) (entity : id_t) : Registry :=
  {| current_ := current_ r;
     entities_ := entities_ r;
     component_managers_ :=
       (λ m, delete_component m entity) <$> component_managers_ r |}.

Definition kill_entity (r : Registry) (entity : id_t) : Registry :=
  if is_alive r entity
  then delete_all_components (mark_as_death r entity) entity
  else r.

Definition get_component_manager (r : Registry) (T : string)
  : option (SparseSet V) :=
  component_managers_ r !! T.

Definition make_component_manager (r : Registry) (T : string)
  : SparseSet V * Registry :=
  (empty_set,
   {| current_ := current_ r;
      entities_ := entities_ r;
      component_managers_ := <[T := empty_set]> (component_managers_ r) |}).

Definition has_component (r : Registry) (T : string) (entity : id_t) : bool :=
  match get_component_manager r T with
  | Some manager => has_data manager entity
  | None => false
  end.

Definition get_component (r : Registry) (T : string) (entity : id_t)
  : option V :=
  match get_component_manager r T with
  | Some manager => get_data manager entity
  | None => None
  end.

(** The manager is shared with the map: what [SparseSet::bind] does to
    it is what the map holds afterwards. *)
Definition registry_bind (r : Registry) (T : string) (entity : id_t) (v : V)
  : option (Registry * BindResult) :=
  if negb (is_alive r entity) then Some (r, Some DEAD_ENTITY)
  else
    let '(manager, r1) :=
      match get_component_manager r T with
      | Some manager => (manager, r)
      | None => make_component_manager r T
      end in
    '(manager', result) ← bind manager entity v;
    Some ({| current_ := current_ r1;
             entities_ := entities_ r1;
             component_managers_ := <[T := manager']> (component_managers_ r1) |},
          result).

Definition registry_unbind (r : Registry) (T : string) (entity : id_t)
  : Registry * option V :=
  match get_component_manager r T with
  | Some manager =>
      let '(manager', component) := unbind manager entity in
      ({| current_ := current_ r;
          entities_ := entities_ r;
          component_managers_ := <[T := manager']> (component_managers_ r) |},
       component)
  | None => (r, None)
  end.

Definition entities_with_component (r : Registry) (T : string) : list id_t :=
  match get_component_manager r T with
  | Some manager => List.filter (λ entity, has_data manager entity) (entities_ r)
  | None => []
  end.

Definition get_components (r : Registry) (Ts : list string) (entity : id_t)
  : list (option V) :=
  (λ T, get_component r T entity) <$> Ts.

(** [TypeListHelper]: the fold of [&&] over the type list, and the
    tuple of the unwrapped components ([None] when a [value()] would
    throw). *)
Definition has_components (r : Registry) (Ts : list string) (entity : id_t)
  : bool :=
  forallb (λ T, has_component r T entity) Ts.

Definition convert_and_unwrapp (r : Registry) (Ts : list string) (entity : id_t)
  : option (list V) :=
  mapM (λ T, get_component r T entity) Ts.

Definition is_empty (Ts : list string) : bool :=
  match Ts with [] => true | _ => false end.

Definition with_components (r : Registry) (Ts : list string) : list id_t :=
  if negb (is_empty Ts)
  then List.filter (λ entity, has_components r Ts entity) (entities_ r)
  else [].

(** [required_entities] of [query]. *)
Definition required_entities (r : Registry) (W B : list string) : list id_t :=
  set_difference (with_components r W) (with_components r B).

Definition query (r : Registry) (W B : list string) : option (list (list V)) :=
  mapM (convert_and_unwrapp r W) (required_entities r W B).

(** *** Derived notions *)

(** [n] calls of [make_entity]: the ids returned, in order, and the
    final state. *)
Fixpoint make_entities (n : nat) (r : Registry) : list id_t * Registry :=
  match n with
  | O => ([], r)
  | S n' =>
      let '(e, r1) := make_entity r in
      let '(es, r2) := make_entities n' r1 in
      (e :: es, r2)
  end.

Definition kill_entities (ks : list id_t) (r : Registry) : Registry :=
  foldl kill_entity r ks.

(** The recycle ordering as the specification states it: after the
    kills [ks], the next [length ks] calls of [make_entity] return
    [ks] reversed and the [m] calls that follow return the ids from
    the length of the entity array upwards. *)
Definition recycle_order_as_stated (r : Registry) (ks : list id_t) (m : nat)
  : Prop :=
  fst (make_entities (length ks + m) (kill_entities ks r))
  = reverse ks ++ ((λ j, size (entities_ r) + N.of_nat j) <$> seq 0 m).

(** Two states with the same entity array and the same head of the
    free chain. *)
Definition same_allocator (r r' : Registry) : Prop :=
  entities_ r = entities_ r' ∧ current_ r = current_ r'.

(** The mutating operations of the public interface.  The other
    public operations ([is_alive], [has_component], [get_component],
    [get_components], [entities_with_component], [query]) are [const]
    and leave the state as it is. *)
Inductive reg_op : Type :=
  | MakeEntity
  | KillEntity (e : id_t)
  | Bind (T : string) (e : id_t) (v : V)
  | Unbind (T : string) (e : id_t).

Definition reg_step (r : Registry) (o : reg_op) : option Registry :=
  match o with
  | MakeEntity => Some (snd (make_entity r))
  | KillEntity e => Some (kill_entity r e)
  | Bind T e v => fst <$> registry_bind r T e v
  | Unbind T e => Some (fst (registry_unbind r T e))
  end.

(** [make_entity] hands out an id other than [MAX_ID]: it recycles, or
    the entity array has fewer than [MAX_ID] slots.  The
    specification makes the other case fatal. *)
Definition can_make (r : Registry) : Prop :=
  current_ r ≠ MAX_ID ∨ size (entities_ r) < MAX_ID.

Definition op_allowed (r : Registry) (o : reg_op) : Prop :=
  match o with MakeEntity => can_make r | _ => True end.

(** States reachable from the fresh registry by the public
    operations, the id space not being exhausted and every operation
    having a result. *)
Inductive Reach : Registry → Prop :=
  | Reach_empty : Reach empty_registry
  | Reach_step r o r' :
      Reach r → op_allowed r o → reg_step r o = Some r' → Reach r'.

Fixpoint run_registry_from (r : Registry) (ops : list reg_op)
  : option Registry :=
  match ops with
  | [] => Some r
  | o :: ops' => r' ← reg_step r o; run_registry_from r' ops'
  end.

Definition run_registry (ops : list reg_op) : option Registry :=
  run_registry_from empty_registry ops.

Fixpoint ops_allowed (r : Registry) (ops : list reg_op) : Prop :=
  match ops with
  | [] => True
  | o :: ops' =>
      op_allowed r o
      ∧ match reg_step r o with
        | Some r' => ops_allowed r' ops'
        | None => False
        end
  end.

(** The free chain: from [h], each dead slot holds the next one. *)
Fixpoint free_chain (ents : list id_t) (h : id_t) (l : list id_t) : Prop :=
  match l with
  | [] => h = MAX_ID
  | x :: l' => h = x ∧ x ≠ MAX_ID ∧ free_chain ents (vget ents x) l'
  end.

(** The invariant of the entity allocator (section 3 of the
    specification): every slot is alive or on the free chain that
    starts at [current_], and the chain has no repetition. *)
Record Allocator_wf (r : Registry) (l : list id_t) : Prop := {
  awf_bound : size (entities_ r) ≤ MAX_ID;
  awf_nodup : NoDup l;
  awf_chain : free_chain (entities_ r) (current_ r) l;
  awf_dead : ∀ x, x ∈ l → x < size (entities_ r) ∧ is_alive r x = false;
  awf_cover : ∀ i, i < size (entities_ r) → is_alive r i = true ∨ i ∈ l
}.

Record Registry_wf (r : Registry) : Prop := {
  rwf_alloc : ∃ l, Allocator_wf r l;
  rwf_stores : ∀ T m, component_managers_ r !! T = Some m → SparseSet_wf m;
  rwf_has_alive : ∀ T e, has_component r T e = true → is_alive r e = true
}.
End Registry.

Arguments Registry : clear implicits.
Arguments reg_op : clear implicits.

(** The arity of a result tuple as the specification states it: the
    entity id followed by one reference per type of [W]. *)
Definition stated_tuple_arity (W : list string) : nat := S (length W).

(** ** Example states *)

(** A sparse set that holds keys 2 and 1, in this order in [dense_],
    and the calls that make it. *)
Definition example_set_ops : list (set_op string) :=
  [OpBind 0 "a"; OpBind 1 "c"; OpBind 2 "b"; OpUnbind 0]%string.

Definition example_set : SparseSet string :=
  {| sparse_ := [MAX_ID; 1; 0]; dense_ := [2; 1]; data_ := ["b"; "c"]%string |}.

(** Scenario S6: entities 0 and 1 have [U32] and [Vec2]; entity 0 also
    has [Char]. *)
Definition scenario_ops : list (reg_op string) :=
  [MakeEntity; MakeEntity;
   Bind "U32" 0 "u0"; Bind "Vec2" 0 "v0";
   Bind "U32" 1 "u1"; Bind "Vec2" 1 "v1";
   Bind "Char" 0 "c0"]%string.

Definition scenario : Registry string :=
  {| current_ := MAX_ID;
     entities_ := [0; 1];
     component_managers_ :=
       <["Char"%string :=
           {| sparse_ := [0]; dense_ := [0]; data_ := ["c0"%string] |}]>
       (<["Vec2"%string :=
           {| sparse_ := [0; 1]; dense_ := [0; 1];
              data_ := ["v0"; "v1"]%string |}]>
       (<["U32"%string :=
           {| sparse_ := [0; 1]; dense_ := [0; 1];
              data_ := ["u0"; "u1"]%string |}]> ∅)) |}.

(** Two entities of which 0 was killed. *)
Definition one_dead_ops : list (reg_op string) :=
  [MakeEntity; MakeEntity; KillEntity 0].

Definition one_dead : Registry string :=
  {| current_ := 0; entities_ := [MAX_ID; 1]; component_managers_ := ∅ |}.

(** Four entities with a [U32] each, of which 2 and 0 were killed, in
    this order. *)
Definition recycling_ops : list (reg_op string) :=
  [MakeEntity; MakeEntity; MakeEntity; MakeEntity;
   Bind "U32" 0 "u0"; Bind "U32" 1 "u1"; Bind "U32" 2 "u2"; Bind "U32" 3 "u3";
   KillEntity 2; KillEntity 0]%string.

Definition recycling : Registry string :=
  {| current_ := 0;
     entities_ := [2; 1; MAX_ID; 3];
     component_managers_ :=
       <["U32"%string :=
           {| sparse_ := [MAX_ID; 1; MAX_ID; 0]; dense_ := [3; 1];
              data_ := ["u3"; "u1"]%string |}]> ∅ |}.

(** A registry whose entity array has [n] slots, every one alive, and
    no store.  With [n] above [MAX_ID], id [MAX_ID] is alive in it:
    the state after [n] calls of [make_entity]. *)
Definition all_alive (n : N) : Registry string :=
  {| current_ := MAX_ID;
     entities_ := N.of_nat <$> seq 0 (N.to_nat n);
     component_managers_ := ∅ |}.

(** ** type_list.h

    The type lists are computed by the compiler; the model computes
    them on lists of types.  A [type_list_t<Types...>] argument is the
    list of its [Types]; the templates are declared for such arguments
    only. *)

Module typing.

(** The types that the type lists and [types.h] build. *)
#[local] Unset Elimination Schemes.
Inductive type : Type :=
  | named (name : string)
  | optional (T : type)
  | reference_wrapper (T : type)
  | type_list_t (Types : list type)
  | tuple (Types : list type)
  | vector (T : type).
#[local] Set Elimination Schemes.

Definition size (List : list type) : nat := length List.

Definition is_empty (List : list type) : bool :=
  match List with [] => true | _ => false end.

(** [front] of the empty list is the empty list itself, as a type. *)
Definition front (List : list type) : type :=
  match List with
  | [] => type_list_t []
  | Head :: _ => Head
  end.

Definition push_back (List : list type) (NewType : type) : list type :=
  List ++ [NewType].

Definition push_front (List : list type) (NewType : type) : list type :=
  NewType :: List.

Definition pop_front (List : list type) : list type :=
  match List with
  | [] => []
  | _ :: Tail => Tail
  end.

(** [at_t<List, Index>] inherits from [at_t<pop_front<List>, Index - 1>],
    and [at_t<List, 0>] from [front_t<List>]. *)
Fixpoint at_ (List : list type) (Index : nat) : type :=
  match Index with
  | O => front List
  | S Index' => at_ (pop_front List) Index'
  end.

(** [at<List, sizeof...(List) - 1>].  For the empty list the index wraps
    around to the largest [size_t] and the instantiation does not end:
    there is no type. *)
Definition top (List : list type) : option type :=
  match List with
  | [] => None
  | _ :: _ => Some (at_ List (length List - 1))
  end.

(** [reverse_t<List, false>] is
    [push_back_t<reverse<pop_front<List>>, front<List>>]; in the second
    branch [Head] is [front List] and [Tail] is [pop_front List]. *)
Fixpoint reverse (List : list type) : list type :=
  match List with
  | [] => List
  | Head :: Tail => push_back (reverse Tail) Head
  end.

Definition pop_back (List : list type) : list type :=
  reverse (pop_front (reverse List)).

Definition cast (List : list type) (U : list type → type) : type := U List.

Definition add_optional (T : type) : type := optional T.

(** [std::reference_wrapper<const T>]. *)
Definition add_reference_wrapper (T : type) : type := reference_wrapper T.

(** [transform_t<List, MetaFun, false>] is
    [push_front_t<transform<pop_front<List>, MetaFun>, MetaFun<front<List>>>]. *)
Fixpoint transform (List : list type) (MetaFun : type → type) : list type :=
  match List with
  | [] => List
  | Head :: Tail => push_front (transform Tail MetaFun) (MetaFun Head)
  end.

End typing.

(** ** types.h *)

Definition Components (List : list typing.type) : typing.type :=
  typing.cast
    (typing.transform
       (typing.transform List typing.add_reference_wrapper)
       typing.add_optional)
    typing.tuple.

Definition QueryResult (List : list typing.type) : typing.type :=
  typing.vector
    (typing.cast (typing.transform List typing.add_reference_wrapper)
       typing.tuple).

(** The component types of a list of type names. *)
Definition named_types (Ts : list string) : list typing.type :=
  typing.named <$> Ts.

(** ** The scenarios of the test suite, evaluated *)

Example bind_two :
  bind empty_set 0 "first"%string
  = Some ({| sparse_ := [0]; dense_ := [0]; data_ := ["first"%string] |}, None)
  ∧ bind {| sparse_ := [0]; dense_ := [0]; data_ := ["first"%string] |}
      1 "second"%string
    = Some ({| sparse_ := [0; 1]; dense_ := [0; 1];
               data_ := ["first"%string; "second"%string] |}, None).
Proof. split; reflexivity. Qed.

Example bind_max :
  bind (@empty_set string) MAX_ID "error"%string
  = Some (empty_set, Some INVALID_KEY).
Proof. reflexivity. Qed.

Example unbind_middle :
  unbind {| sparse_ := [0; 1; 2]; dense_ := [0; 1; 2];
            data_ := ["A"; "B"; "C"]%string |} 1
  = ({| sparse_ := [0; MAX_ID; 1]; dense_ := [0; 2];
        data_ := ["A"%string; "C"%string] |}, Some "B"%string).
Proof. reflexivity. Qed.

Example bind_gap :
  bind (@empty_set string) 2 "x"%string = None
  ∧ filled (rezise_fill (@empty_set string) 2) = [MAX_ID; MAX_ID; MAX_ID]
  ∧ bind_overrun (@empty_set string) 2 = 2.
Proof. repeat apply conj; reflexivity. Qed.

Example example_set_run : run_ops example_set_ops = Some example_set.
Proof. reflexivity. Qed.

Example scenario_run : run_registry scenario_ops = Some scenario.
Proof. vm_compute. reflexivity. Qed.

Example one_dead_run : run_registry one_dead_ops = Some one_dead.
Proof. vm_compute. reflexivity. Qed.

Example recycling_run : run_registry recycling_ops = Some recycling.
Proof. vm_compute. reflexivity. Qed.

Example recycle_lifo :
  fst (make_entities 4 (@empty_registry string)) = [0; 1; 2; 3]
  ∧ fst (make_entities 4
           (kill_entities [2; 0; 1; 3]
              (snd (make_entities 4 (@empty_registry string)))))
    = [3; 1; 0; 2].
Proof. split; reflexivity. Qed.

Example bind_dead :
  registry_bind one_dead "Foo" 0 "x"%string = Some (one_dead, Some DEAD_ENTITY).
Proof. reflexivity. Qed.

Example query_with_exclusion :
  required_entities scenario ["U32"; "Vec2"]%string [] = [0; 1]
  ∧ query scenario ["U32"; "Vec2"]%string []
    = Some [["u0"; "v0"]; ["u1"; "v1"]]%string
  ∧ required_entities scenario ["U32"; "Vec2"]%string ["Char"%string] = [1]
  ∧ query scenario ["U32"; "Vec2"]%string ["Char"%string]
    = Some [["u1"; "v1"]]%string
  ∧ query scenario [] [] = Some [].
Proof. repeat apply conj; vm_compute; reflexivity. Qed.

Example recycling_state :
  entities_with_component recycling "U32" = [1; 3]
  ∧ is_alive recycling 2 = false.
Proof. repeat apply conj; vm_compute; reflexivity. Qed.

Example unbind_first_and_last :
  unbind example_set 2
  = ({| sparse_ := [MAX_ID; 0; MAX_ID]; dense_ := [1]; data_ := ["c"%string] |},
     Some "b"%string)
  ∧ unbind example_set 1
  = ({| sparse_ := [MAX_ID; MAX_ID; 0]; dense_ := [2]; data_ := ["b"%string] |},
     Some "c"%string)
  ∧ unbind_ref example_set 1 = unbind example_set 1.
Proof. repeat apply conj; reflexivity. Qed.
(** ** Facts about vectors indexed by ids *)

Section VectorFacts.
Context {A : Type}.
Implicit Types (v : list A) (i j : N) (x y : A).

Lemma vlook_lt v i x : vlook v i = Some x → i < size v.
Proof. unfold vlook, size. intros H%lookup_lt_Some. lia. Qed.

Lemma vlook_None v i : vlook v i = None ↔ size v ≤ i.
Proof. unfold vlook, size. rewrite lookup_ge_None. lia. Qed.

Lemma vlook_is_Some v i : i < size v → is_Some (vlook v i).
Proof. unfold vlook, size. intros. apply lookup_lt_is_Some. lia. Qed.

Lemma size_vset v i x : size (vset v i x) = size v.
Proof. unfold size, vset. by rewrite length_insert. Qed.

Lemma vlook_vset_eq v i x : i < size v → vlook (vset v i x) i = Some x.
Proof. unfold vlook, vset, size. intros. apply list_lookup_insert_eq. lia. Qed.

Lemma vlook_vset_ne v i j x : i ≠ j → vlook (vset v i x) j = vlook v j.
Proof. unfold vlook, vset. intros. apply list_lookup_insert_ne. lia. Qed.

Lemma vset_id v i x : vlook v i = Some x → vset v i x = v.
Proof. apply list_insert_id. Qed.

Lemma vset_ge v i x : size v ≤ i → vset v i x = v.
Proof. unfold vset, size. intros. apply list_insert_ge. lia. Qed.

Lemma size_snoc v x : size (v ++ [x]) = size v + 1.
Proof. unfold size. rewrite length_app. simpl. lia. Qed.

Lemma vlook_snoc_eq v x : vlook (v ++ [x]) (size v) = Some x.
Proof.
  unfold vlook, size. rewrite Nat2N.id.
  rewrite lookup_app_r by lia. by rewrite Nat.sub_diag.
Qed.

Lemma vlook_snoc_lt v x i : i < size v → vlook (v ++ [x]) i = vlook v i.
Proof. unfold vlook, size. intros. apply lookup_app_l. lia. Qed.

Lemma vlook_snoc_Some v x i y :
  vlook (v ++ [x]) i = Some y →
  (i < size v ∧ vlook v i = Some y) ∨ (i = size v ∧ y = x).
Proof.
  intros H. destruct (decide (i < size v)) as [Hlt|Hge].
  - left. by rewrite vlook_snoc_lt in H.
  - right. assert (i < size (v ++ [x])) as Hi by (by eapply vlook_lt).
    rewrite size_snoc in Hi. assert (i = size v) as -> by lia.
    rewrite vlook_snoc_eq in H. by simplify_eq.
Qed.

Lemma size_pop_back v : size (pop_back v) = size v - 1.
Proof. unfold size, pop_back. rewrite length_take. lia. Qed.

Lemma vlook_pop_back_lt v i : i < size v - 1 → vlook (pop_back v) i = vlook v i.
Proof. unfold vlook, pop_back, size. intros. apply lookup_take_lt. lia. Qed.

Lemma vlook_pop_back_Some v i x :
  vlook (pop_back v) i = Some x → i < size v - 1 ∧ vlook v i = Some x.
Proof.
  intros H. assert (i < size v - 1) as Hi.
  { rewrite <- size_pop_back. by eapply vlook_lt. }
  split; [done|]. by rewrite vlook_pop_back_lt in H.
Qed.

Lemma size_vswap v i j : size (vswap v i j) = size v.
Proof.
  unfold vswap. destruct (vlook v i), (vlook v j); try done.
  by rewrite !size_vset.
Qed.

Lemma vlook_vswap_l v i j x y :
  vlook v i = Some x → vlook v j = Some y → vlook (vswap v i j) i = Some y.
Proof.
  intros Hi Hj. unfold vswap. rewrite Hi, Hj.
  destruct (decide (i = j)) as [->|Hne].
  - simplify_eq. rewrite vlook_vset_eq; [done|].
    rewrite size_vset. by eapply vlook_lt.
  - rewrite vlook_vset_ne by done. apply vlook_vset_eq. by eapply vlook_lt.
Qed.

Lemma vlook_vswap_r v i j x y :
  vlook v i = Some x → vlook v j = Some y → vlook (vswap v i j) j = Some x.
Proof.
  intros Hi Hj. unfold vswap. rewrite Hi, Hj.
  apply vlook_vset_eq. rewrite size_vset. by eapply vlook_lt.
Qed.

Lemma vlook_vswap_ne v i j k :
  k ≠ i → k ≠ j → vlook (vswap v i j) k = vlook v k.
Proof.
  intros Hi Hj. unfold vswap. destruct (vlook v i), (vlook v j); try done.
  by rewrite !vlook_vset_ne.
Qed.

Lemma back_Some v x : back v = Some x → vlook v (size v - 1) = Some x.
Proof. done. Qed.

Lemma back_snoc v x : back (v ++ [x]) = Some x.
Proof.
  unfold back. rewrite size_snoc.
  replace (size v + 1 - 1) with (size v) by lia. apply vlook_snoc_eq.
Qed.
End VectorFacts.

Lemma vget_vlook (v : list N) i x : vlook v i = Some x → vget v i = x.
Proof. unfold vget, vlook. intros H. by rewrite (list_lookup_total_correct _ _ _ H). Qed.

Lemma to_id_small n : n ≤ MAX_ID → to_id n = n.
Proof. unfold to_id, MAX_ID. intros. apply N.mod_small. lia. Qed.

(** No more than [n] distinct ids lie below [n]. *)
Lemma size_NoDup_below (l : list N) (n : N) :
  NoDup l → (∀ x, x ∈ l → x < n) → size l ≤ n.
Proof.
  intros Hnd Hlt.
  assert (l ⊆+ (N.of_nat <$> seq 0 (N.to_nat n))) as Hsub.
  { apply NoDup_submseteq; [done|]. intros x Hx.
    apply list_elem_of_fmap. exists (N.to_nat x). split; [lia|].
    apply elem_of_seq. specialize (Hlt x Hx). lia. }
  apply submseteq_length in Hsub.
  rewrite length_fmap, length_seq in Hsub. unfold size. lia.
Qed.

(** ** The sparse-set invariant *)

Section SparseSetFacts.
Context {T : Type}.
Implicit Types (s : SparseSet T) (key k i : N) (v : T).

Lemma has_data_true s k :
  has_data s k = true ↔ ∃ i, vlook (sparse_ s) k = Some i ∧ i ≠ MAX_ID.
Proof.
  unfold has_data, out_of_bounds, is_null_key.
  destruct (N.leb_spec (size (sparse_ s)) k) as [Hge|Hlt]; simpl.
  - split; [done|]. intros (i & Hi%vlook_lt & _). lia.
  - destruct (vlook_is_Some (sparse_ s) k Hlt) as [i Hi].
    rewrite (vget_vlook _ _ _ Hi).
    destruct (N.eqb_spec i MAX_ID) as [->|Hne].
    + split; [done|]. intros (j & Hj & Hne). by simplify_eq.
    + split; [|done]. intros _. by exists i.
Qed.

Lemma has_data_false s k :
  has_data s k = false ↔ size (sparse_ s) ≤ k ∨ vlook (sparse_ s) k = Some MAX_ID.
Proof.
  rewrite <- not_true_iff_false, has_data_true. split.
  - intros Hno. destruct (vlook (sparse_ s) k) as [i|] eqn:Hi.
    + right. destruct (decide (i = MAX_ID)) as [->|]; [done|].
      destruct Hno. eauto.
    + left. by apply vlook_None.
  - intros [Hge|Hnull] (i & Hi & Hne).
    + apply vlook_lt in Hi. lia.
    + by simplify_eq.
Qed.

Lemma has_data_lt s k : has_data s k = true → k < size (sparse_ s).
Proof. intros (i & Hi & _)%has_data_true. by eapply vlook_lt. Qed.

Lemma has_data_MAX_ID s : SparseSet_wf s → has_data s MAX_ID = false.
Proof. intros Hwf. apply has_data_false. left. apply Hwf. Qed.

Lemma has_data_empty_set k : has_data (@empty_set T) k = false.
Proof. apply has_data_false. left. simpl. unfold size. simpl. lia. Qed.

Lemma empty_set_wf : SparseSet_wf (@empty_set T).
Proof. split; simpl; done. Qed.

Lemma wf_NoDup s : SparseSet_wf s → NoDup (dense_ s).
Proof.
  intros Hwf. apply NoDup_alt. intros i j k Hi Hj.
  pose proof (wf_dense s Hwf (N.of_nat i) k) as H1.
  pose proof (wf_dense s Hwf (N.of_nat j) k) as H2.
  unfold vlook in H1 at 1, H2 at 1. rewrite Nat2N.id in H1, H2.
  specialize (H1 Hi). specialize (H2 Hj). simplify_eq. lia.
Qed.

Lemma wf_dense_below s x :
  SparseSet_wf s → x ∈ dense_ s → x < size (sparse_ s).
Proof.
  intros Hwf [i Hi]%list_elem_of_lookup.
  pose proof (wf_dense s Hwf (N.of_nat i) x) as H1.
  unfold vlook in H1 at 1. rewrite Nat2N.id in H1.
  specialize (H1 Hi). by eapply vlook_lt.
Qed.

Lemma wf_size_dense s : SparseSet_wf s → size (dense_ s) ≤ size (sparse_ s).
Proof.
  intros Hwf. apply size_NoDup_below; [by apply wf_NoDup|].
  intros x Hx. by apply wf_dense_below.
Qed.

Lemma wf_dense_has s i k :
  SparseSet_wf s → vlook (dense_ s) i = Some k → has_data s k = true.
Proof.
  intros Hwf Hi. apply has_data_true. exists i. split; [by apply Hwf|].
  pose proof (vlook_lt _ _ _ Hi). pose proof (wf_size_dense s Hwf).
  pose proof (wf_bound s Hwf). lia.
Qed.

Lemma wf_has_dense s k :
  SparseSet_wf s → has_data s k = true →
  vlook (dense_ s) (vget (sparse_ s) k) = Some k ∧ vget (sparse_ s) k ≠ MAX_ID.
Proof.
  intros Hwf (i & Hi & Hne)%has_data_true.
  rewrite (vget_vlook _ _ _ Hi). split; [by apply Hwf|done].
Qed.

(** A key of the sparse array without data leaves room for one more
    dense entry below [MAX_ID]. *)
Lemma wf_room s key :
  SparseSet_wf s → key < size (sparse_ s) → has_data s key = false →
  size (dense_ s) < MAX_ID.
Proof.
  intros Hwf Hlt Hno.
  assert (size (dense_ s ++ [key]) ≤ size (sparse_ s)) as Hle.
  { apply size_NoDup_below.
    - apply NoDup_app. split_and!; [by apply wf_NoDup| |apply NoDup_singleton].
      intros x [i Hi]%list_elem_of_lookup ->%list_elem_of_singleton.
      assert (has_data s key = true); [|congruence].
      apply (wf_dense_has s (N.of_nat i)); [done|].
      unfold vlook. by rewrite Nat2N.id.
    - intros x [Hx| ->%list_elem_of_singleton]%elem_of_app; [|done].
      by apply wf_dense_below. }
  rewrite size_snoc in Hle. pose proof (wf_bound s Hwf). lia.
Qed.
End SparseSetFacts.

(** ** Growth of the sparse array *)

Section Growth.
Context {T : Type}.
Implicit Types (s : SparseSet T) (key k i : N) (v : T).

Lemma rezise_sparse s key :
  size (sparse_ s) ≤ key → key < MAX_ID →
  filled (rezise_fill s key)
  = sparse_ s ++ replicate (N.to_nat (key + 1 - size (sparse_ s))) MAX_ID.
Proof.
  intros Hge Hlt. unfold rezise_fill, fill. simpl.
  rewrite to_id_small by lia.
  rewrite resize_ge by (unfold size in Hge; lia).
  apply list_eq. intros i. rewrite list_lookup_imap.
  destruct (decide (i < length (sparse_ s))%nat) as [Hi|Hi].
  - rewrite !lookup_app_l by done.
    destruct (sparse_ s !! i) as [y|]; [simpl|done].
    destruct (N.leb_spec (size (sparse_ s)) (N.of_nat i)) as [Hle|_]; [|done].
    unfold size in Hle. lia.
  - rewrite !lookup_app_r by lia.
    replace (N.to_nat (key + 1) - length (sparse_ s))%nat
      with (N.to_nat (key + 1 - size (sparse_ s))) by (unfold size; lia).
    destruct (decide (i - length (sparse_ s) < N.to_nat (key + 1 - size (sparse_ s)))%nat)
      as [Hin|Hout].
    + rewrite !lookup_replicate_2 by done. simpl.
      destruct (N.leb_spec (size (sparse_ s)) (N.of_nat i)) as [_|Hlt'];
        [|unfold size in Hlt'; lia].
      destruct (N.ltb_spec (N.of_nat i)
        (size (sparse_ s ++ replicate (N.to_nat (key + 1 - size (sparse_ s))) 0)
         + (key - size (sparse_ s)))) as [_|Hge']; [done|].
      unfold size in Hge', Hin. rewrite length_app, length_replicate in Hge'. lia.
    + assert (∀ x : N, replicate (N.to_nat (key + 1 - size (sparse_ s))) x
                       !! (i - length (sparse_ s))%nat = None) as Hnone.
      { intros x. apply lookup_replicate_None. lia. }
      by rewrite !Hnone.
Qed.

(** The number of cells that the [fill] of [rezise] writes past the
    end of the grown array. *)
Lemma rezise_overrun s key :
  size (sparse_ s) ≤ key → key < MAX_ID →
  overrun (rezise_fill s key) = key - size (sparse_ s).
Proof.
  intros Hge Hlt. unfold rezise_fill, fill. cbv zeta. cbn [overrun].
  rewrite to_id_small by lia. unfold size. rewrite length_resize. lia.
Qed.

(** [grown] has a result exactly for the keys up to the length of the
    sparse array. *)
Lemma grown_Some s key s1 :
  key < MAX_ID → grown s key = Some s1 →
  key ≤ size (sparse_ s)
  ∧ sparse_ s1
    = sparse_ s ++ replicate (N.to_nat (key + 1 - size (sparse_ s))) MAX_ID
  ∧ dense_ s1 = dense_ s ∧ data_ s1 = data_ s.
Proof.
  intros Hlt. unfold grown, out_of_bounds.
  destruct (N.leb_spec (size (sparse_ s)) key) as [Hge|Hin].
  - unfold rezise. rewrite rezise_overrun by done.
    destruct (N.eqb_spec (key - size (sparse_ s)) 0) as [Hz|Hnz]; [|done].
    pose proof (rezise_sparse s key Hge Hlt) as Hs.
    simpl. intros [= <-]. split_and!; [lia|exact Hs|done..].
  - intros [= <-]. replace (key + 1 - size (sparse_ s)) with 0 by lia.
    simpl. rewrite app_nil_r. split_and!; [lia|done..].
Qed.

Lemma grown_is_Some s key :
  key < MAX_ID → key ≤ size (sparse_ s) → is_Some (grown s key).
Proof.
  intros Hlt Hle. unfold grown, out_of_bounds.
  destruct (N.leb_spec (size (sparse_ s)) key) as [Hge|Hin]; [|by eexists].
  unfold rezise. rewrite rezise_overrun by done.
  replace (key - size (sparse_ s)) with 0 by lia. simpl. by eexists.
Qed.

Lemma grown_None s key :
  key < MAX_ID → size (sparse_ s) < key → grown s key = None.
Proof.
  intros Hlt Hgt. unfold grown, out_of_bounds.
  destruct (N.leb_spec (size (sparse_ s)) key) as [Hge|Hin]; [|lia].
  unfold rezise. rewrite rezise_overrun by done.
  destruct (N.eqb_spec (key - size (sparse_ s)) 0) as [Hz|Hnz]; [lia|done].
Qed.

Lemma size_grown s key s1 :
  key < MAX_ID → grown s key = Some s1 →
  size (sparse_ s1) = N.max (size (sparse_ s)) (key + 1).
Proof.
  intros Hlt (Hle & -> & _)%grown_Some; [|done]. unfold size.
  rewrite length_app, length_replicate. unfold size. lia.
Qed.

Lemma vlook_grown_old s key s1 k :
  key < MAX_ID → grown s key = Some s1 → k < size (sparse_ s) →
  vlook (sparse_ s1) k = vlook (sparse_ s) k.
Proof.
  intros Hlt (Hle & -> & _)%grown_Some Hk; [|done]. unfold vlook, size in *.
  apply lookup_app_l. lia.
Qed.

Lemma vlook_grown_new s key s1 k :
  key < MAX_ID → grown s key = Some s1 →
  size (sparse_ s) ≤ k → k < size (sparse_ s1) →
  vlook (sparse_ s1) k = Some MAX_ID.
Proof.
  intros Hlt Hg Hk Hk'. rewrite (size_grown s key) in Hk' by done.
  apply grown_Some in Hg as (Hle & -> & _); [|done]. unfold vlook, size in *.
  rewrite lookup_app_r by lia. apply lookup_replicate_2. lia.
Qed.

Lemma dense_grown s key s1 :
  key < MAX_ID → grown s key = Some s1 → dense_ s1 = dense_ s.
Proof. intros Hlt Hg. by apply grown_Some in Hg as (_ & _ & -> & _). Qed.

Lemma data_grown s key s1 :
  key < MAX_ID → grown s key = Some s1 → data_ s1 = data_ s.
Proof. intros Hlt Hg. by apply grown_Some in Hg as (_ & _ & _ & ->). Qed.

Lemma has_data_grown s key s1 k :
  key < MAX_ID → grown s key = Some s1 → has_data s1 k = has_data s k.
Proof.
  intros Hlt Hg. apply eq_true_iff_eq. rewrite !has_data_true.
  destruct (decide (k < size (sparse_ s))) as [Hk|Hk].
  - by rewrite (vlook_grown_old s key).
  - split; intros (i & Hi & Hne).
    + pose proof (vlook_lt _ _ _ Hi).
      rewrite (vlook_grown_new s key) in Hi by (done || lia). by simplify_eq.
    + apply vlook_lt in Hi. lia.
Qed.

Lemma grown_wf s key s1 :
  SparseSet_wf s → key < MAX_ID → grown s key = Some s1 → SparseSet_wf s1.
Proof.
  intros Hwf Hlt Hg. split.
  - rewrite (dense_grown s key), (data_grown s key) by done. apply Hwf.
  - rewrite (size_grown s key) by done. pose proof (wf_bound s Hwf). lia.
  - rewrite (dense_grown s key) by done. intros i k Hi.
    pose proof (wf_dense s Hwf i k Hi) as Hs.
    rewrite (vlook_grown_old s key); [done..|]. by eapply vlook_lt.
  - rewrite (dense_grown s key) by done. intros k i Hk Hne.
    destruct (decide (k < size (sparse_ s))) as [Hin|Hout].
    + rewrite (vlook_grown_old s key) in Hk by done. by apply Hwf.
    + pose proof (vlook_lt _ _ _ Hk).
      rewrite (vlook_grown_new s key) in Hk by (done || lia). by simplify_eq.
Qed.

Lemma grown_in_bounds s key s1 :
  key < MAX_ID → grown s key = Some s1 → key < size (sparse_ s1).
Proof. intros. rewrite (size_grown s key) by done. lia. Qed.
End Growth.

(** ** [bind] and [unbind] keep the invariant *)

Section BindUnbind.
Context {T : Type}.
Implicit Types (s : SparseSet T) (key k i : N) (v : T).

Lemma bind_unfold s key v :
  bind s key v =
  if is_null_key key then Some (s, Some INVALID_KEY)
  else s1 ← grown s key; Some (bound s1 key v, None).
Proof.
  unfold bind, grown, bound. destruct (is_null_key key); [done|].
  destruct (if out_of_bounds s key then _ else _) as [s1|]; [simpl|done].
  by destruct (has_data s1 key).
Qed.

Lemma is_null_key_lt key : key < MAX_ID → is_null_key key = false.
Proof. unfold is_null_key. intros. apply N.eqb_neq. lia. Qed.

Lemma bind_null s v : bind s MAX_ID v = Some (s, Some INVALID_KEY).
Proof. reflexivity. Qed.

Lemma bind_Some s key v s' res :
  key < MAX_ID → bind s key v = Some (s', res) →
  ∃ s1, grown s key = Some s1 ∧ s' = bound s1 key v ∧ res = None.
Proof.
  intros Hlt. rewrite bind_unfold, is_null_key_lt by done.
  destruct (grown s key) as [s1|]; [|done]. simpl. intros [= <- <-]. eauto.
Qed.

(** [bind] has a result for the keys up to the length of the sparse
    array, and for no other key below [MAX_ID]. *)
Lemma bind_is_Some s key v :
  key < MAX_ID → key ≤ size (sparse_ s) →
  ∃ s1, grown s key = Some s1 ∧ bind s key v = Some (bound s1 key v, None).
Proof.
  intros Hlt Hle. destruct (grown_is_Some s key Hlt Hle) as [s1 Hg].
  exists s1. split; [done|].
  rewrite bind_unfold, is_null_key_lt by done. by rewrite Hg.
Qed.

Lemma bind_None s key v :
  key < MAX_ID → size (sparse_ s) < key → bind s key v = None.
Proof.
  intros Hlt Hgt. rewrite bind_unfold, is_null_key_lt by done.
  by rewrite grown_None.
Qed.

Lemma bind_in_reach s key v s' res :
  key < MAX_ID → bind s key v = Some (s', res) → key ≤ size (sparse_ s).
Proof.
  intros Hlt (s1 & Hg & _)%bind_Some; [|done].
  by apply grown_Some in Hg as (Hle & _).
Qed.


Lemma bind_ok s key v s' res :
  key < MAX_ID → bind s key v = Some (s', res) → res = None.
Proof. intros Hlt (s1 & _ & _ & ->)%bind_Some; done. Qed.

Lemma bound_wf s1 key v :
  SparseSet_wf s1 → key < size (sparse_ s1) → SparseSet_wf (bound s1 key v).
Proof.
  intros Hwf1 Hin. unfold bound.
  destruct (has_data s1 key) eqn:Hhas; simpl.
  - split; simpl; try apply Hwf1.
    unfold vset. rewrite length_insert. apply Hwf1.
  - pose proof (wf_room s1 key Hwf1 Hin Hhas) as Hroom.
    rewrite to_id_small by lia. split; simpl.
    + rewrite !length_app. simpl. by rewrite (wf_len s1 Hwf1).
    + rewrite size_vset. apply Hwf1.
    + intros i k [[Hi Hk]|[-> ->]]%vlook_snoc_Some.
      * rewrite vlook_vset_ne; [by apply Hwf1|].
        intros <-. pose proof (wf_dense_has s1 i key Hwf1 Hk). congruence.
      * by apply vlook_vset_eq.
    + intros k i Hk Hne. destruct (decide (key = k)) as [->|Hkk].
      * rewrite vlook_vset_eq in Hk by done. simplify_eq. apply vlook_snoc_eq.
      * rewrite vlook_vset_ne in Hk by done.
        pose proof (wf_sparse s1 Hwf1 k i Hk Hne) as Hd.
        rewrite vlook_snoc_lt; [done|]. by eapply vlook_lt.
Qed.

Lemma has_data_bound s1 key v k :
  SparseSet_wf s1 → key < size (sparse_ s1) →
  has_data (bound s1 key v) k = if decide (k = key) then true else has_data s1 k.
Proof.
  intros Hwf1 Hin. unfold bound.
  destruct (has_data s1 key) eqn:Hhas; simpl.
  - case_decide; [by subst|done].
  - pose proof (wf_room s1 key Hwf1 Hin Hhas) as Hroom.
    rewrite to_id_small by lia.
    case_decide as Hk.
    + subst. apply has_data_true. eexists. split.
      * simpl. by apply vlook_vset_eq.
      * lia.
    + apply eq_true_iff_eq. rewrite !has_data_true. simpl.
      by rewrite vlook_vset_ne.
Qed.

Lemma bind_wf s key v s' res :
  SparseSet_wf s → key ≤ MAX_ID → bind s key v = Some (s', res) →
  SparseSet_wf s'.
Proof.
  intros Hwf Hle Hb. destruct (decide (key = MAX_ID)) as [->|Hne].
  - rewrite bind_null in Hb. by simplify_eq.
  - assert (key < MAX_ID) as Hlt by lia.
    apply bind_Some in Hb as (s1 & Hg & -> & _); [|done].
    apply bound_wf; [by eapply grown_wf|by eapply grown_in_bounds].
Qed.

Lemma has_data_bind s key v s' res k :
  SparseSet_wf s → key < MAX_ID → bind s key v = Some (s', res) →
  has_data s' k = if decide (k = key) then true else has_data s k.
Proof.
  intros Hwf Hlt (s1 & Hg & -> & _)%bind_Some; [|done].
  rewrite <- (has_data_grown s key s1 k Hlt Hg).
  apply has_data_bound; [by eapply grown_wf|by eapply grown_in_bounds].
Qed.

(** The cells [unbind] reads when the key has data. *)
Lemma unbind_cells s key :
  SparseSet_wf s → has_data s key = true →
  ∃ i b, vlook (sparse_ s) key = Some i ∧ i ≠ MAX_ID
         ∧ vlook (dense_ s) i = Some key
         ∧ vlook (dense_ s) (size (dense_ s) - 1) = Some b
         ∧ vlook (sparse_ s) b = Some (size (dense_ s) - 1)
         ∧ i < size (dense_ s).
Proof.
  intros Hwf (i & Hi & Hne)%has_data_true.
  pose proof (wf_sparse s Hwf key i Hi Hne) as Hd.
  pose proof (vlook_lt _ _ _ Hd) as Hlt.
  destruct (vlook_is_Some (dense_ s) (size (dense_ s) - 1)) as [b Hb]; [lia|].
  exists i, b. split_and!; try done. by apply Hwf.
Qed.

Lemma unbind_absent s key : has_data s key = false → unbind s key = (s, None).
Proof. intros H. unfold unbind. by rewrite H. Qed.

Lemma unbind_wf s key : SparseSet_wf s → SparseSet_wf (fst (unbind s key)).
Proof.
  intros Hwf. destruct (has_data s key) eqn:Hhas;
    [|by rewrite unbind_absent].
  destruct (unbind_cells s key Hwf Hhas) as (i & b & Hi & Hne & Hd & Hb & Hsb & Hlt).
  unfold unbind. rewrite Hhas. cbv zeta. unfold back. rewrite Hb.
  rewrite (vget_vlook _ _ _ Hi). simpl.
  assert (size (data_ s) = size (dense_ s)) as Hsz.
  { unfold size. by rewrite (wf_len s Hwf). }
  split; simpl.
  - unfold pop_back. rewrite !length_take.
    pose proof (size_vswap (dense_ s) i (size (dense_ s) - 1)) as H1.
    pose proof (size_vswap (data_ s) i (size (data_ s) - 1)) as H2.
    unfold size in *. lia.
  - rewrite !size_vset. apply Hwf.
  - intros j k [Hj Hk]%vlook_pop_back_Some. rewrite size_vswap in Hj.
    destruct (decide (j = i)) as [->|Hji].
    + rewrite (vlook_vswap_l _ _ _ _ _ Hd Hb) in Hk. simplify_eq.
      assert (k ≠ key) as Hkk.
      { intros ->. rewrite Hi in Hsb. simplify_eq. lia. }
      rewrite vlook_vset_ne by done. apply vlook_vset_eq. by eapply vlook_lt.
    + rewrite vlook_vswap_ne in Hk by (done || lia).
      pose proof (wf_dense s Hwf j k Hk) as Hs.
      assert (k ≠ key) by (intros ->; congruence).
      assert (k ≠ b) by (intros ->; rewrite Hs in Hsb; simplify_eq; lia).
      by rewrite !vlook_vset_ne.
  - intros k j Hk Hnj.
    assert (k ≠ key) as Hkk.
    { intros ->. rewrite vlook_vset_eq in Hk; [by simplify_eq|].
      rewrite size_vset. by eapply vlook_lt. }
    rewrite vlook_vset_ne in Hk by done.
    destruct (decide (k = b)) as [->|Hkb].
    + rewrite vlook_vset_eq in Hk by (by eapply vlook_lt). simplify_eq.
      assert (j ≠ size (dense_ s) - 1) by (intros ->; congruence).
      rewrite vlook_pop_back_lt by (rewrite size_vswap; lia).
      by apply (vlook_vswap_l _ _ _ key).
    + rewrite vlook_vset_ne in Hk by done.
      pose proof (wf_sparse s Hwf k j Hk Hnj) as Hdj.
      pose proof (vlook_lt _ _ _ Hdj).
      assert (j ≠ i) by (intros ->; congruence).
      assert (j ≠ size (dense_ s) - 1) by (intros ->; congruence).
      rewrite vlook_pop_back_lt by (rewrite size_vswap; lia).
      by rewrite vlook_vswap_ne.
Qed.

Lemma has_data_unbind s key k :
  SparseSet_wf s →
  has_data (fst (unbind s key)) k = if decide (k = key) then false else has_data s k.
Proof.
  intros Hwf. destruct (has_data s key) eqn:Hhas.
  2:{ rewrite unbind_absent by done. simpl. case_decide; by subst. }
  destruct (unbind_cells s key Hwf Hhas) as (i & b & Hi & Hne & Hd & Hb & Hsb & Hlt).
  unfold unbind. rewrite Hhas. cbv zeta. unfold back. rewrite Hb.
  rewrite (vget_vlook _ _ _ Hi). simpl.
  case_decide as Hk.
  - subst. apply has_data_false. right. simpl.
    apply vlook_vset_eq. rewrite size_vset. by eapply vlook_lt.
  - apply eq_true_iff_eq. rewrite !has_data_true. simpl.
    rewrite vlook_vset_ne by done.
    destruct (decide (b = k)) as [->|Hbk]; [|by rewrite vlook_vset_ne].
    rewrite vlook_vset_eq by (by eapply vlook_lt).
    split; intros _.
    + exists (size (dense_ s) - 1). split; [done|].
      pose proof (wf_size_dense s Hwf). pose proof (wf_bound s Hwf). lia.
    + eauto.
Qed.
End BindUnbind.

(** ** Properties of a single sparse set *)

Section SparseSetTheorems.
Context {T : Type}.
Implicit Types (s : SparseSet T) (key k i : N) (v : T).

Lemma wf_inverse s : SparseSet_wf s → sparse_dense_inverse s.
Proof.
  intros Hwf. split_and!.
  - intros i Hi. destruct (vlook_is_Some (dense_ s) i Hi) as [k Hk].
    exists k. split; [done|]. by apply Hwf.
  - apply Hwf.
  - unfold size. by rewrite (wf_len s Hwf).
  - by apply wf_NoDup.
Qed.

Lemma apply_op_wf s (o : set_op T) s' :
  SparseSet_wf s → op_key o ≤ MAX_ID → apply_op s o = Some s' →
  SparseSet_wf s'.
Proof.
  intros Hwf Hlt. destruct o as [e v|e]; simpl in *.
  - destruct (bind s e v) as [[s1 res]|] eqn:Hb; [|done].
    simpl. intros [= <-]. by eapply bind_wf.
  - intros [= <-]. by apply unbind_wf.
Qed.

Lemma run_ops_from_wf (ops : list (set_op T)) s s' :
  SparseSet_wf s → Forall (λ o, op_key o ≤ MAX_ID) ops →
  run_ops_from s ops = Some s' → SparseSet_wf s'.
Proof.
  intros Hwf Hops. revert s Hwf.
  induction Hops as [|o ops Ho _ IH]; intros s Hwf; simpl.
  - by intros [= <-].
  - destruct (apply_op s o) as [s1|] eqn:Ho1; [simpl|done].
    apply IH. by eapply apply_op_wf.
Qed.

(** One operation whose key is in reach has a result. *)
Lemma apply_op_in_reach s (o : set_op T) :
  SparseSet_wf s → key_in_reach s o →
  ∃ s', apply_op s o = Some s' ∧ SparseSet_wf s'.
Proof.
  intros Hwf Hk. destruct o as [e v|e]; simpl in *.
  - destruct Hk as [Hle| ->].
    + destruct (decide (e = MAX_ID)) as [->|Hne].
      * rewrite bind_null. simpl. eauto.
      * pose proof (wf_bound s Hwf).
        destruct (bind_is_Some s e v) as (s1 & Hg & ->); [lia..|].
        simpl. eexists. split; [done|].
        assert (e < MAX_ID) as Hlt by lia.
        apply bound_wf; [by eapply grown_wf|by eapply grown_in_bounds].
    + rewrite bind_null. simpl. eauto.
  - eexists. split; [done|]. by apply unbind_wf.
Qed.

Lemma run_ops_from_in_reach (ops : list (set_op T)) s :
  SparseSet_wf s → keys_in_reach s ops →
  ∃ s', run_ops_from s ops = Some s' ∧ SparseSet_wf s'.
Proof.
  revert s. induction ops as [|o ops IH]; intros s Hwf Hops; simpl; [by eauto|].
  destruct Hops as [Ho Hops].
  destruct (apply_op_in_reach s o Hwf Ho) as (s1 & Hs1 & Hwf1).
  rewrite Hs1. simpl. apply IH; [done|]. by apply Hops.
Qed.

Lemma keys_in_reach_take (ops : list (set_op T)) s (n : nat) :
  keys_in_reach s ops → keys_in_reach s (take n ops).
Proof.
  revert s n. induction ops as [|o ops IH]; intros s [|n]; simpl; try done.
  intros [Ho Hops]. split; [done|]. intros s' Hs'. by apply IH, Hops.
Qed.

(** C8: on a state that satisfies the sparse-set invariants and a key
    that has data, [unbind] returns the state and the value of the
    reference algorithm of the specification. *)
Theorem C8_unbind_refines_reference s key :
  sparse_dense_inverse s → has_data s key = true →
  unbind s key = unbind_ref s key.
Proof.
  intros (_ & Hinv & Hsz & _) Hhas.
  pose proof Hhas as (i & Hi & Hne)%has_data_true.
  pose proof (Hinv key i Hi Hne) as Hd.
  pose proof (vlook_lt _ _ _ Hd) as Hlt.
  destruct (vlook_is_Some (dense_ s) (size (dense_ s) - 1)) as [b Hb]; [lia|].
  unfold unbind, unbind_ref. rewrite Hhas. cbv zeta.
  rewrite (vget_vlook _ _ _ Hi). unfold back at 1. rewrite Hb.
  rewrite (vlook_vswap_l _ _ _ _ _ Hd Hb). simpl.
  by rewrite Hsz.
Qed.

(** The number of cells that [bind] writes past the end of the sparse
    array: the distance of the key from the end of the array. *)
Lemma bind_overrun_gap s key :
  size (sparse_ s) ≤ key → key < MAX_ID →
  bind_overrun s key = key - size (sparse_ s).
Proof.
  intros Hge Hlt. unfold bind_overrun, out_of_bounds.
  rewrite is_null_key_lt by done.
  destruct (N.leb_spec (size (sparse_ s)) key) as [_|?]; [|lia].
  by apply rezise_overrun.
Qed.

(** [bind] has a result exactly when it writes no cell past the end. *)
Lemma bind_None_overrun s key v :
  key < MAX_ID → bind s key v = None ↔ bind_overrun s key ≠ 0.
Proof.
  intros Hlt. destruct (decide (key ≤ size (sparse_ s))) as [Hle|Hgt].
  - destruct (bind_is_Some s key v Hlt Hle) as (s1 & _ & ->).
    split; [done|]. intros Hne. destruct Hne.
    unfold bind_overrun, out_of_bounds. rewrite is_null_key_lt by done.
    destruct (N.leb_spec (size (sparse_ s)) key) as [Hge|?]; [|done].
    rewrite rezise_overrun by done. lia.
  - rewrite bind_None by (done || lia). split; [|done]. intros _.
    rewrite bind_overrun_gap by (done || lia). lia.
Qed.
End SparseSetTheorems.

Lemma example_set_wf : SparseSet_wf example_set.
Proof.
  eapply (run_ops_from_wf example_set_ops empty_set);
    [apply empty_set_wf|repeat constructor; by vm_compute|reflexivity].
Qed.

Lemma C8_witness :
  sparse_dense_inverse example_set
  ∧ has_data example_set 2 = true
  ∧ unbind example_set 2 = unbind_ref example_set 2.
Proof.
  assert (has_data example_set 2 = true) as Hhas by reflexivity.
  exact (conj (wf_inverse _ example_set_wf) (conj Hhas
    (C8_unbind_refines_reference _ 2 (wf_inverse _ example_set_wf) Hhas))).
Defined.

(** C3: binding key 3 on the empty sparse set, a key other than
    [MAX_ID], runs into the [fill] of [rezise] that writes three cells
    past the end of the grown array: the call has no defined result,
    and no state of which the invariants could hold. *)
Theorem C3_bind_past_the_end_is_undefined :
  is_null_key 3 = false
  ∧ bind_overrun (@empty_set string) 3 = 3
  ∧ bind (@empty_set string) 3 "x"%string = None
  ∧ run_ops [OpBind 3 "x"%string] = None.
Proof. repeat apply conj; reflexivity. Qed.

(** C4: binding key 1 on the empty sparse set grows the sparse array to
    two cells, and the [fill] of [rezise] writes one cell past its
    end, so that the call has no defined result. *)
Theorem C4_fill_writes_past_the_end :
  size (filled (rezise_fill (@empty_set string) 1)) = 2
  ∧ overrun (rezise_fill (@empty_set string) 1) = 1
  ∧ bind_overrun (@empty_set string) 1 = 1
  ∧ bind (@empty_set string) 1 "v"%string = None.
Proof. repeat apply conj; reflexivity. Qed.

(** ** The entity allocator *)

Section Allocator.
Context {V : Type}.
Implicit Types (r : Registry V) (e x i : N) (l : list N).

Lemma is_alive_true r e :
  is_alive r e = true ↔ vlook (entities_ r) e = Some e.
Proof.
  unfold is_alive.
  destruct (N.ltb_spec e (size (entities_ r))) as [Hlt|Hge].
  - rewrite N.eqb_eq. destruct (vlook_is_Some (entities_ r) e Hlt) as [y Hy].
    rewrite (vget_vlook _ _ _ Hy), Hy. split; [by intros ->|by intros [= ->]].
  - split; [done|]. intros H%vlook_lt. lia.
Qed.

Lemma is_alive_lt r e : is_alive r e = true → e < size (entities_ r).
Proof. intros H%is_alive_true. by eapply vlook_lt. Qed.

Lemma is_alive_ext r r' e :
  entities_ r = entities_ r' → is_alive r e = is_alive r' e.
Proof. unfold is_alive. by intros ->. Qed.

Lemma free_chain_frame ents ents' h l :
  (∀ x, x ∈ l → vget ents' x = vget ents x) →
  free_chain ents h l → free_chain ents' h l.
Proof.
  revert h. induction l as [|y l IH]; intros h Hsame; simpl; [done|].
  intros (-> & Hne & Hrest). split_and!; [done..|].
  rewrite Hsame by apply list_elem_of_here.
  apply IH; [|done]. intros x Hx. apply Hsame. by apply list_elem_of_further.
Qed.

Lemma free_chain_null ents l : free_chain ents MAX_ID l → l = [].
Proof. destruct l as [|x l]; [done|]. simpl. intros (<- & Hne & _). done. Qed.

Lemma free_chain_head ents h l :
  h ≠ MAX_ID → free_chain ents h l →
  ∃ l', l = h :: l' ∧ free_chain ents (vget ents h) l'.
Proof.
  destruct l as [|x l]; simpl; [done|].
  intros _ (-> & _ & Hrest). by exists l.
Qed.

Lemma vget_vset_ne (ents : list N) i x y : i ≠ x → vget (vset ents i y) x = vget ents x.
Proof. unfold vget, vset. intros. apply list_lookup_total_insert_ne. lia. Qed.

Lemma vget_vset_eq (ents : list N) i y : i < size ents → vget (vset ents i y) i = y.
Proof. unfold vget, vset, size. intros. apply list_lookup_total_insert_eq. lia. Qed.

Lemma vget_snoc_lt (ents : list N) y x : x < size ents → vget (ents ++ [y]) x = vget ents x.
Proof. unfold vget, size. intros. apply lookup_total_app_l. lia. Qed.

Lemma allocator_wf_ext r r' l :
  entities_ r = entities_ r' → current_ r = current_ r' →
  Allocator_wf r l → Allocator_wf r' l.
Proof.
  intros He Hc [H1 H2 H3 H4 H5]. split.
  - by rewrite <- He.
  - done.
  - by rewrite <- He, <- Hc.
  - intros x Hx. rewrite <- He, <- (is_alive_ext r r') by done. by apply H4.
  - intros i Hi. rewrite <- (is_alive_ext r r') by done. apply H5. by rewrite He.
Qed.

Lemma allocator_wf_current r l :
  Allocator_wf r l → is_alive r (current_ r) = false.
Proof.
  intros Hwf. destruct (decide (current_ r = MAX_ID)) as [Hc|Hc].
  - apply not_true_iff_false. intros Ha%is_alive_lt.
    pose proof (awf_bound r l Hwf). lia.
  - destruct (free_chain_head _ _ _ Hc (awf_chain r l Hwf)) as (l' & -> & _).
    apply (awf_dead r _ Hwf). apply list_elem_of_here.
Qed.

Lemma is_alive_not_null r l e : Allocator_wf r l → is_alive r e = true → e < MAX_ID.
Proof. intros Hwf He%is_alive_lt. pose proof (awf_bound r l Hwf). lia. Qed.

Lemma empty_allocator_wf : Allocator_wf (@empty_registry V) [].
Proof.
  split; simpl; try done.
  - apply NoDup_nil_2.
  - intros x Hx. by apply not_elem_of_nil in Hx.
  - intros i Hi. unfold size in Hi. simpl in Hi. lia.
Qed.

(** A fresh slot. *)
Lemma make_new_entity_wf r l :
  Allocator_wf r l → size (entities_ r) < MAX_ID →
  Allocator_wf (snd (make_new_entity r)) l.
Proof.
  intros Hwf Hlt. unfold make_new_entity. cbn [snd].
  rewrite to_id_small by lia. split; cbn [entities_ current_].
  - rewrite size_snoc. lia.
  - apply Hwf.
  - eapply free_chain_frame; [|apply Hwf].
    intros x Hx. apply vget_snoc_lt. by apply (awf_dead r l Hwf).
  - intros x Hx. destruct (awf_dead r l Hwf x Hx) as [Hx1 Hx2].
    split; [rewrite size_snoc; lia|].
    apply not_true_iff_false. rewrite is_alive_true. cbn [entities_].
    rewrite vlook_snoc_lt by done. rewrite <- is_alive_true. congruence.
  - intros i Hi. rewrite size_snoc in Hi.
    destruct (decide (i = size (entities_ r))) as [->|Hne].
    + left. apply is_alive_true. cbn [entities_]. apply vlook_snoc_eq.
    + destruct (awf_cover r l Hwf i) as [Ha|Hl]; [lia| |by right].
      left. apply is_alive_true. cbn [entities_].
      rewrite vlook_snoc_lt by lia. by apply is_alive_true.
Qed.

(** The head of the free chain comes back to life. *)
Lemma recycle_entity_wf r l :
  Allocator_wf r l → current_ r ≠ MAX_ID →
  ∃ l', l = current_ r :: l' ∧ Allocator_wf (snd (recycle_entity r)) l'.
Proof.
  intros Hwf Hc.
  destruct (free_chain_head _ _ _ Hc (awf_chain r l Hwf)) as (l' & -> & Hrest).
  exists l'. split; [done|].
  pose proof (awf_nodup r _ Hwf) as [Hnotin Hnd]%NoDup_cons.
  destruct (awf_dead r _ Hwf (current_ r)) as [Hclt Hcdead];
    [apply list_elem_of_here|].
  unfold recycle_entity. cbn [snd]. split; cbn [entities_ current_].
  - rewrite size_vset. apply Hwf.
  - done.
  - eapply free_chain_frame; [|done].
    intros x Hx. apply vget_vset_ne. by intros <-.
  - intros x Hx.
    destruct (awf_dead r _ Hwf x) as [Hx1 Hx2]; [by apply list_elem_of_further|].
    split; [by rewrite size_vset|].
    apply not_true_iff_false. rewrite is_alive_true. cbn [entities_].
    rewrite vlook_vset_ne by (by intros <-).
    rewrite <- is_alive_true. congruence.
  - intros i Hi. rewrite size_vset in Hi.
    destruct (decide (i = current_ r)) as [->|Hne].
    + left. apply is_alive_true. cbn [entities_]. by apply vlook_vset_eq.
    + destruct (awf_cover r _ Hwf i Hi) as [Ha|Hl].
      * left. apply is_alive_true. cbn [entities_].
        rewrite vlook_vset_ne by done. by apply is_alive_true.
      * right. apply elem_of_cons in Hl as [?|?]; done.
Qed.

(** A live entity becomes the head of the free chain. *)
Lemma mark_as_death_wf r l e :
  Allocator_wf r l → is_alive r e = true →
  Allocator_wf (mark_as_death r e) (e :: l).
Proof.
  intros Hwf He.
  pose proof (is_alive_lt r e He) as Helt.
  pose proof (is_alive_not_null r l e Hwf He) as Hnull.
  pose proof (allocator_wf_current r l Hwf) as Hcur.
  assert (e ∉ l) as Hnotin.
  { intros Hin. destruct (awf_dead r l Hwf e Hin). congruence. }
  assert (current_ r ≠ e) as Hce by (intros Heq; congruence).
  unfold mark_as_death. split; cbn [entities_ current_].
  - rewrite size_vset. apply Hwf.
  - apply NoDup_cons. split; [done|apply Hwf].
  - simpl. split_and!; [done|lia|].
    rewrite vget_vset_eq by done.
    eapply free_chain_frame; [|apply Hwf].
    intros x Hx. apply vget_vset_ne. by intros ->.
  - intros x Hx. rewrite size_vset.
    apply elem_of_cons in Hx as [->|Hx].
    + split; [done|]. apply not_true_iff_false.
      rewrite is_alive_true. cbn [entities_].
      rewrite vlook_vset_eq by done. by intros [= ?].
    + destruct (awf_dead r l Hwf x Hx) as [Hx1 Hx2]. split; [done|].
      apply not_true_iff_false. rewrite is_alive_true. cbn [entities_].
      rewrite vlook_vset_ne by (by intros ->).
      rewrite <- is_alive_true. congruence.
  - intros i Hi. rewrite size_vset in Hi.
    destruct (decide (i = e)) as [->|Hne]; [right; apply list_elem_of_here|].
    destruct (awf_cover r l Hwf i Hi) as [Ha|Hl].
    + left. apply is_alive_true. cbn [entities_].
      rewrite vlook_vset_ne by done. by apply is_alive_true.
    + right. by apply list_elem_of_further.
Qed.
End Allocator.

(** ** The registry invariant is kept by every operation *)

Section RegistryInvariant.
Context {V : Type}.
Implicit Types (r : Registry V) (e x i : N) (l : list N) (T : string) (v : V).

Lemma has_component_true r T e :
  has_component r T e = true ↔
  ∃ m, component_managers_ r !! T = Some m ∧ has_data m e = true.
Proof.
  unfold has_component, get_component_manager.
  destruct (component_managers_ r !! T) as [m|].
  - split; [by exists m|]. by intros (m' & [= <-] & Hhas).
  - split; [done|]. by intros (m' & [=] & _).
Qed.

Lemma has_component_MAX_ID r T :
  Registry_wf r → has_component r T MAX_ID = false.
Proof.
  intros Hwf. apply not_true_iff_false.
  intros (m & Hm & Hhas)%has_component_true.
  rewrite (has_data_MAX_ID m) in Hhas; [done|]. by eapply rwf_stores.
Qed.

Lemma empty_registry_wf : Registry_wf (@empty_registry V).
Proof.
  split.
  - exists []. apply empty_allocator_wf.
  - intros T m Hm. simpl in Hm. by rewrite lookup_empty in Hm.
  - intros T e (m & Hm & _)%has_component_true.
    simpl in Hm. by rewrite lookup_empty in Hm.
Qed.

Lemma make_entity_managers r :
  component_managers_ (snd (make_entity r)) = component_managers_ r.
Proof. unfold make_entity. by destruct (current_ r =? MAX_ID). Qed.

Lemma make_entity_alive r e :
  is_alive r e = true → is_alive (snd (make_entity r)) e = true.
Proof.
  rewrite !is_alive_true. intros He. unfold make_entity.
  destruct (current_ r =? MAX_ID); cbn [snd make_new_entity recycle_entity entities_].
  - rewrite vlook_snoc_lt; [done|]. by eapply vlook_lt.
  - destruct (decide (current_ r = e)) as [->|Hne].
    + apply vlook_vset_eq. by eapply vlook_lt.
    + by rewrite vlook_vset_ne.
Qed.

Lemma make_entity_allocator_wf r l :
  Allocator_wf r l → can_make r → ∃ l', Allocator_wf (snd (make_entity r)) l'.
Proof.
  intros Hwf Hcan. unfold make_entity.
  destruct (N.eqb_spec (current_ r) MAX_ID) as [Hc|Hc].
  - exists l. apply make_new_entity_wf; [done|]. by destruct Hcan.
  - destruct (recycle_entity_wf r l Hwf Hc) as (l' & _ & Hwf'). by exists l'.
Qed.

Lemma make_entity_wf r :
  Registry_wf r → can_make r → Registry_wf (snd (make_entity r)).
Proof.
  intros [[l Hal] Hst Hha] Hcan. split.
  - by eapply make_entity_allocator_wf.
  - rewrite make_entity_managers. apply Hst.
  - intros T e (m & Hm & Hhas)%has_component_true.
    rewrite make_entity_managers in Hm.
    apply make_entity_alive, (Hha T). apply has_component_true. eauto.
Qed.

Lemma kill_entity_dead r e : is_alive r e = false → kill_entity r e = r.
Proof. intros H. unfold kill_entity. by rewrite H. Qed.

Lemma kill_entity_alive r e :
  is_alive r e = true →
  kill_entity r e = delete_all_components (mark_as_death r e) e.
Proof. intros H. unfold kill_entity. by rewrite H. Qed.

Lemma has_component_kill r T e x :
  Registry_wf r → is_alive r e = true →
  has_component (kill_entity r e) T x
  = if decide (x = e) then false else has_component r T x.
Proof.
  intros Hwf He. rewrite kill_entity_alive by done.
  unfold has_component, get_component_manager, delete_all_components, mark_as_death.
  cbn [component_managers_]. rewrite lookup_fmap.
  destruct (component_managers_ r !! T) as [m|] eqn:Hm; simpl.
  - unfold delete_component. apply has_data_unbind. by eapply rwf_stores.
  - by case_decide.
Qed.

Lemma is_alive_kill_other r e x :
  x ≠ e → is_alive (kill_entity r e) x = is_alive r x.
Proof.
  intros Hne. unfold kill_entity. destruct (is_alive r e); [|done].
  apply eq_true_iff_eq. rewrite !is_alive_true. simpl.
  by rewrite vlook_vset_ne.
Qed.

Lemma kill_entity_wf r e : Registry_wf r → Registry_wf (kill_entity r e).
Proof.
  intros Hwf. destruct (is_alive r e) eqn:He; [|by rewrite kill_entity_dead].
  destruct Hwf as [[l Hal] Hst Hha]. split.
  - exists (e :: l). rewrite kill_entity_alive by done.
    eapply allocator_wf_ext; [..|by apply mark_as_death_wf]; done.
  - intros T m. rewrite kill_entity_alive by done. simpl. rewrite lookup_fmap.
    destruct (component_managers_ r !! T) as [m0|] eqn:Hm0; simpl; [|done].
    intros [= <-]. apply unbind_wf. by eapply Hst.
  - intros T x Hx.
    rewrite has_component_kill in Hx by (done || by split; eauto).
    case_decide as Hxe; [done|].
    rewrite is_alive_kill_other by done. by eapply Hha.
Qed.

(** [registry_bind] on a live entity: the store of [T], the empty one
    when there is none yet, is replaced by what [bind] makes of it. *)
Lemma registry_bind_alive r T e v :
  is_alive r e = true →
  registry_bind r T e v =
  '(m', res) ← bind (default empty_set (component_managers_ r !! T)) e v;
  Some ({| current_ := current_ r;
           entities_ := entities_ r;
           component_managers_ := <[T := m']> (component_managers_ r) |}, res).
Proof.
  intros He. unfold registry_bind, get_component_manager, make_component_manager.
  rewrite He. simpl.
  destruct (component_managers_ r !! T) as [m|]; simpl; [done|].
  destruct (bind empty_set e v) as [[m' res]|]; [simpl|done].
  by rewrite insert_insert_eq.
Qed.

Lemma registry_bind_dead r T e v :
  is_alive r e = false → registry_bind r T e v = Some (r, Some DEAD_ENTITY).
Proof. intros He. unfold registry_bind. by rewrite He. Qed.

Lemma store_default_wf r T :
  Registry_wf r → SparseSet_wf (default empty_set (component_managers_ r !! T)).
Proof.
  intros Hwf. destruct (component_managers_ r !! T) as [m|] eqn:Hm; simpl.
  - by eapply (rwf_stores r Hwf).
  - apply empty_set_wf.
Qed.

Lemma registry_bind_wf r T e v r' res :
  Registry_wf r → registry_bind r T e v = Some (r', res) → Registry_wf r'.
Proof.
  intros Hwf. destruct (is_alive r e) eqn:He;
    [|rewrite registry_bind_dead by done; by intros [= <- <-]].
  rewrite registry_bind_alive by done.
  pose proof (store_default_wf r T Hwf) as Hm.
  destruct (bind _ e v) as [[m1 res1]|] eqn:Hb; [simpl|done].
  intros [= <- <-].
  destruct Hwf as [[l Hal] Hst Hha].
  pose proof (is_alive_not_null r l e Hal He) as Hlt.
  split.
  - exists l. by eapply allocator_wf_ext; [..|done].
  - intros T' m'. cbn [component_managers_].
    destruct (decide (T = T')) as [->|Hne].
    + rewrite lookup_insert_eq. intros [= <-].
      eapply bind_wf; [exact Hm| |exact Hb]. lia.
    + rewrite lookup_insert_ne by done. apply Hst.
  - intros T' x (m' & Hm' & Hhas)%has_component_true.
    cbn [component_managers_] in Hm'.
    rewrite (is_alive_ext _ r) by done.
    destruct (decide (T = T')) as [->|Hne].
    + rewrite lookup_insert_eq in Hm'. simplify_eq.
      rewrite (has_data_bind _ _ _ _ _ x Hm Hlt Hb) in Hhas.
      case_decide; [by subst|]. apply (Hha T'). apply has_component_true.
      destruct (component_managers_ r !! T') as [m|]; simpl in *; [eauto|].
      by rewrite has_data_empty_set in Hhas.
    + rewrite lookup_insert_ne in Hm' by done.
      apply (Hha T'). apply has_component_true. eauto.
Qed.

Lemma registry_unbind_some r T e m :
  component_managers_ r !! T = Some m →
  registry_unbind r T e =
  ({| current_ := current_ r;
      entities_ := entities_ r;
      component_managers_ := <[T := fst (unbind m e)]> (component_managers_ r) |},
   snd (unbind m e)).
Proof.
  intros Hm. unfold registry_unbind, get_component_manager. rewrite Hm.
  by destruct (unbind m e).
Qed.

Lemma registry_unbind_none r T e :
  component_managers_ r !! T = None → registry_unbind r T e = (r, None).
Proof.
  intros Hm. unfold registry_unbind, get_component_manager. by rewrite Hm.
Qed.

Lemma registry_unbind_wf r T e :
  Registry_wf r → Registry_wf (fst (registry_unbind r T e)).
Proof.
  intros Hwf. destruct (component_managers_ r !! T) as [m|] eqn:Hm;
    [|by rewrite registry_unbind_none].
  rewrite (registry_unbind_some r T e m Hm). cbn [fst].
  destruct Hwf as [[l Hal] Hst Hha]. split.
  - exists l. by eapply allocator_wf_ext; [..|done].
  - intros T' m'. cbn [component_managers_].
    destruct (decide (T = T')) as [->|Hne].
    + rewrite lookup_insert_eq. intros [= <-]. apply unbind_wf. by eapply Hst.
    + rewrite lookup_insert_ne by done. apply Hst.
  - intros T' x (m' & Hm' & Hhas)%has_component_true.
    cbn [component_managers_] in Hm'.
    rewrite (is_alive_ext _ r) by done.
    apply (Hha T'). apply has_component_true.
    destruct (decide (T = T')) as [->|Hne].
    + rewrite lookup_insert_eq in Hm'. simplify_eq.
      rewrite has_data_unbind in Hhas by (by eapply Hst).
      case_decide; [done|]. eauto.
    + rewrite lookup_insert_ne in Hm' by done. eauto.
Qed.

Lemma reg_step_wf r (o : reg_op V) r' :
  Registry_wf r → op_allowed r o → reg_step r o = Some r' → Registry_wf r'.
Proof.
  intros Hwf Hok. destruct o as [|e|T e v|T e]; simpl in *.
  - intros [= <-]. by apply make_entity_wf.
  - intros [= <-]. by apply kill_entity_wf.
  - destruct (registry_bind r T e v) as [[r1 res]|] eqn:Hb; [simpl|done].
    intros [= <-]. by eapply registry_bind_wf.
  - intros [= <-]. by apply registry_unbind_wf.
Qed.

Lemma Reach_wf r : Reach r → Registry_wf r.
Proof.
  induction 1 as [|r o r' _ IH Hok Hstep]; [apply empty_registry_wf|].
  by eapply reg_step_wf.
Qed.
End RegistryInvariant.

(** ** Components belong to live entities *)

Section Liveness.
Context {V : Type}.
Implicit Types (r : Registry V) (e x i d : N) (l : list N) (T : string).

Lemma Reach_run_from r (ops : list (reg_op V)) :
  Reach r → ops_allowed r ops →
  ∃ r', run_registry_from r ops = Some r' ∧ Reach r'.
Proof.
  revert r. induction ops as [|o ops IH]; intros r Hr Hok; simpl; [by eauto|].
  destruct Hok as [Ho Hops].
  destruct (reg_step r o) as [r1|] eqn:Hstep; [simpl|done].
  apply IH; [|done]. by eapply Reach_step.
Qed.

Lemma Reach_run (ops : list (reg_op V)) r :
  ops_allowed empty_registry ops → run_registry ops = Some r → Reach r.
Proof.
  intros Hok Hrun.
  destruct (Reach_run_from _ ops Reach_empty Hok) as (r' & Hr' & Hreach).
  unfold run_registry in Hrun. by simplify_eq.
Qed.

(** A dead slot of the chain holds [MAX_ID] or the next dead slot. *)
Lemma free_chain_next ents h l x :
  free_chain ents h l → x ∈ l → vget ents x = MAX_ID ∨ vget ents x ∈ l.
Proof.
  revert h. induction l as [|y l IH]; intros h Hch Hx; [by apply elem_of_nil in Hx|].
  destruct Hch as (-> & Hne & Hrest).
  apply elem_of_cons in Hx as [->|Hx].
  - destruct l as [|z l]; simpl in Hrest; [by left|].
    destruct Hrest as (-> & _). right. apply list_elem_of_further, list_elem_of_here.
  - destruct (IH _ Hrest Hx) as [?|?]; [by left|right].
    by apply list_elem_of_further.
Qed.

(** What a slot holds is its own index, [MAX_ID] or a dead id. *)
Lemma slot_value r l i d :
  Allocator_wf r l → vlook (entities_ r) i = Some d → d ≠ i →
  is_alive r d = false.
Proof.
  intros Hwf Hi Hne.
  pose proof (vlook_lt _ _ _ Hi) as Hlt.
  destruct (awf_cover r l Hwf i Hlt) as [Ha|Hl].
  { apply is_alive_true in Ha. by simplify_eq. }
  pose proof (free_chain_next _ _ _ i (awf_chain r l Hwf) Hl) as Hnext.
  rewrite (vget_vlook _ _ _ Hi) in Hnext. destruct Hnext as [->|Hd].
  - apply not_true_iff_false. intros Ha%is_alive_lt.
    pose proof (awf_bound r l Hwf). lia.
  - by apply (awf_dead r l Hwf).
Qed.

Lemma has_component_dead r T d :
  Registry_wf r → is_alive r d = false → has_component r T d = false.
Proof.
  intros Hwf Hd. apply not_true_iff_false. intros Hhas.
  apply (rwf_has_alive r Hwf) in Hhas. congruence.
Qed.

(** C10: in every state reachable from the fresh registry, an entity
    that has a component of some type is alive; in particular no dead
    id, and no link held by a dead slot, has a component. *)
Theorem C10_components_belong_to_live_entities r :
  Reach r →
  (∀ T e, has_component r T e = true → is_alive r e = true)
  ∧ (∀ T e, is_alive r e = false → has_component r T e = false)
  ∧ (∀ T i d, vlook (entities_ r) i = Some d → d ≠ i →
              has_component r T d = false).
Proof.
  intros Hwf%Reach_wf. split_and!.
  - apply Hwf.
  - intros T e. by apply has_component_dead.
  - intros T i d Hi Hne. apply has_component_dead; [done|].
    destruct (rwf_alloc r Hwf) as [l Hal]. by eapply slot_value.
Qed.
End Liveness.

Lemma scenario_reach : Reach scenario.
Proof.
  apply (Reach_run scenario_ops); [|vm_compute; reflexivity].
  vm_compute. repeat apply conj; try exact I; try reflexivity; right; reflexivity.
Qed.

Lemma recycling_reach : Reach recycling.
Proof.
  apply (Reach_run recycling_ops); [|vm_compute; reflexivity].
  vm_compute. repeat apply conj; try exact I; try reflexivity; right; reflexivity.
Qed.

Lemma C10_witness :
  Reach recycling
  ∧ (∀ T e, has_component recycling T e = true →
            is_alive recycling e = true).
Proof.
  split; [exact recycling_reach|].
  exact (proj1 (C10_components_belong_to_live_entities _ recycling_reach)).
Defined.

(** ** Sorted ranges *)

Lemma StronglySorted_lt_NoDup (l : list N) : StronglySorted N.lt l → NoDup l.
Proof.
  induction 1 as [|a l _ IH Hall]; [apply NoDup_nil_2|].
  apply NoDup_cons. split; [|done].
  intros Ha. rewrite Forall_forall in Hall. specialize (Hall a Ha). lia.
Qed.

Lemma list_filter_elem_of (P : N → bool) (l : list N) x :
  x ∈ List.filter P l ↔ x ∈ l ∧ P x = true.
Proof. rewrite !list_elem_of_In. apply filter_In. Qed.

(** A vector whose selected cells hold their own index, counted from
    [off], is filtered into a strictly ascending range. *)
Lemma filter_slots_sorted (P : N → bool) (ents : list N) (off : N) :
  (∀ i d, ents !! i = Some d → P d = true → d = off + N.of_nat i) →
  StronglySorted N.lt (List.filter P ents)
  ∧ Forall (λ d, off ≤ d) (List.filter P ents).
Proof.
  revert off. induction ents as [|a ents IH]; intros off Hslots; simpl.
  { split; constructor. }
  destruct (IH (off + 1)) as [Hsorted Hall].
  { intros i d Hi Hd. rewrite (Hslots (S i) d Hi Hd). lia. }
  destruct (P a) eqn:Ha.
  - assert (a = off) as -> by (rewrite (Hslots 0%nat a eq_refl Ha); lia).
    split.
    + constructor; [done|]. eapply Forall_impl; [done|]. simpl. lia.
    + constructor; [lia|]. eapply Forall_impl; [done|]. simpl. lia.
  - split; [done|]. eapply Forall_impl; [done|]. simpl. lia.
Qed.

Lemma set_difference_nil_r (l1 : list N) : set_difference l1 [] = l1.
Proof. by destruct l1. Qed.

Lemma set_difference_cons (a b : N) (l1 l2 : list N) :
  set_difference (a :: l1) (b :: l2) =
  if a <? b then a :: set_difference l1 (b :: l2)
  else if b <? a then set_difference (a :: l1) l2
  else set_difference l1 l2.
Proof. reflexivity. Qed.

(** On sorted ranges [std::set_difference] computes the difference, and
    its output is sorted. *)
Lemma set_difference_spec (l1 l2 : list N) :
  StronglySorted N.lt l1 → StronglySorted N.lt l2 →
  StronglySorted N.lt (set_difference l1 l2)
  ∧ ∀ x, x ∈ set_difference l1 l2 ↔ x ∈ l1 ∧ x ∉ l2.
Proof.
  intros H1. revert l2. induction H1 as [|a l1 Hs1 IH1 Ha].
  { intros l2 _. split; [constructor|]. intros x. simpl.
    rewrite elem_of_nil. (intuition (subst; eauto; congruence)). }
  intros l2 H2. induction H2 as [|b l2 Hs2 IH2 Hb].
  { rewrite set_difference_nil_r. split; [by constructor|].
    intros x. rewrite elem_of_nil. (intuition (subst; eauto; congruence)). }
  rewrite Forall_forall in Ha, Hb. rewrite set_difference_cons.
  destruct (N.ltb_spec a b) as [Hab|Hab]; [|destruct (N.ltb_spec b a) as [Hba|Hba]].
  - destruct (IH1 (b :: l2)) as [Hsorted Hmem]; [by constructor; [|apply Forall_forall]|].
    split.
    + constructor; [done|]. apply Forall_forall. intros x [Hx _]%Hmem. by apply Ha.
    + intros x. rewrite !elem_of_cons, Hmem, !elem_of_cons. split.
      * intros [->|[Hx Hnot]]; [|(intuition (subst; eauto; congruence))].
        split; [by left|]. intros [->|Hin]; [lia|]. specialize (Hb a Hin). lia.
      * (intuition (subst; eauto; congruence)).
  - destruct IH2 as [Hsorted Hmem]. split; [done|].
    intros x. rewrite Hmem, !elem_of_cons. split.
    + intros [Hx Hnot]. split; [done|]. intros [->|Hin]; [|done].
      destruct Hx as [->|Hx]; [lia|]. specialize (Ha b Hx). lia.
    + (intuition (subst; eauto; congruence)).
  - assert (a = b) as -> by lia.
    destruct (IH1 l2 Hs2) as [Hsorted Hmem]. split; [done|].
    intros x. rewrite Hmem, !elem_of_cons. split.
    + intros [Hx Hnot]. split; [by right|]. intros [->|Hin]; [|done].
      specialize (Ha b Hx). lia.
    + intros [[->|Hx] Hnot]; [|(intuition (subst; eauto; congruence))]. destruct Hnot. by left.
Qed.

(** ** Enumerations and queries *)

Section Queries.
Context {V : Type}.
Implicit Types (r : Registry V) (e x i d : N) (T : string) (W B Ts : list string).

(** Filtering the entity array by a predicate that holds of live
    entities only lists the live entities that satisfy it, in
    ascending order. *)
Lemma filter_entities r (P : N → bool) :
  Registry_wf r → (∀ d, P d = true → is_alive r d = true) →
  StronglySorted N.lt (List.filter P (entities_ r))
  ∧ ∀ e, e ∈ List.filter P (entities_ r) ↔ is_alive r e = true ∧ P e = true.
Proof.
  intros Hwf HP. destruct (rwf_alloc r Hwf) as [l Hal]. split.
  - apply (filter_slots_sorted P (entities_ r) 0).
    intros i d Hi Hd. destruct (decide (d = N.of_nat i)) as [->|Hne]; [lia|].
    assert (is_alive r d = false) as Hdead; [|rewrite HP in Hdead; done].
    apply (slot_value r l (N.of_nat i)); [done| |done].
    unfold vlook. by rewrite Nat2N.id.
  - intros e. rewrite list_filter_elem_of. split.
    + intros [_ He]. split; [by apply HP|done].
    + intros [Ha He]. split; [|done].
      apply is_alive_true in Ha. by eapply list_elem_of_lookup_2.
Qed.

Lemma has_components_true r Ts e :
  has_components r Ts e = true ↔ ∀ T, T ∈ Ts → has_component r T e = true.
Proof.
  unfold has_components. rewrite forallb_forall.
  by setoid_rewrite list_elem_of_In.
Qed.

Lemma has_components_alive r Ts e :
  Registry_wf r → Ts ≠ [] → has_components r Ts e = true → is_alive r e = true.
Proof.
  intros Hwf Hne Hhas. destruct Ts as [|T Ts]; [done|].
  apply (rwf_has_alive r Hwf T). rewrite has_components_true in Hhas.
  apply Hhas, list_elem_of_here.
Qed.

Lemma with_components_spec r Ts :
  Registry_wf r →
  StronglySorted N.lt (with_components r Ts)
  ∧ ∀ e, e ∈ with_components r Ts ↔
         Ts ≠ [] ∧ is_alive r e = true ∧ has_components r Ts e = true.
Proof.
  intros Hwf. unfold with_components. destruct Ts as [|T Ts]; simpl.
  { split; [constructor|]. intros e. rewrite elem_of_nil. (intuition (subst; eauto; congruence)). }
  destruct (filter_entities r (λ entity, has_components r (T :: Ts) entity) Hwf)
    as [Hsorted Hmem].
  { intros d. by apply has_components_alive. }
  split; [done|]. intros e. rewrite Hmem. (intuition (subst; eauto; congruence)).
Qed.

(** What [query] selects in a state that satisfies the invariant: the
    live entities that have every component of [W], except, when [B]
    is not empty, those that have every component of [B]; in
    ascending order. *)
Lemma required_entities_spec r W B :
  Registry_wf r →
  StronglySorted N.lt (required_entities r W B)
  ∧ ∀ e, e ∈ required_entities r W B ↔
         W ≠ [] ∧ is_alive r e = true ∧ has_components r W e = true
         ∧ ¬ (B ≠ [] ∧ has_components r B e = true).
Proof.
  intros Hwf. unfold required_entities.
  destruct (with_components_spec r W Hwf) as [HsW HmW].
  destruct (with_components_spec r B Hwf) as [HsB HmB].
  destruct (set_difference_spec _ _ HsW HsB) as [Hs Hm].
  split; [done|]. intros e. rewrite Hm, HmW, HmB. (intuition (subst; eauto; congruence)).
Qed.

(** C9: in a reachable state, [entities_with_component] is empty when
    the type has no store, and otherwise lists exactly the live
    entities that the store has, in strictly ascending order, hence
    without repetition and without dead ids. *)
Theorem C9_entities_with_component r T :
  Reach r →
  (get_component_manager r T = None → entities_with_component r T = [])
  ∧ (∀ e, e ∈ entities_with_component r T ↔
          is_alive r e = true ∧ has_component r T e = true)
  ∧ StronglySorted N.lt (entities_with_component r T)
  ∧ NoDup (entities_with_component r T).
Proof.
  intros Hwf%Reach_wf.
  unfold entities_with_component, has_component.
  destruct (get_component_manager r T) as [m|] eqn:Hm.
  - destruct (filter_entities r (λ entity, has_data m entity) Hwf) as [Hs Hmem].
    { intros d Hd. apply (rwf_has_alive r Hwf T).
      unfold has_component. by rewrite Hm. }
    split_and!; [done|done|done|by apply StronglySorted_lt_NoDup].
  - split_and!; [done| |constructor|apply NoDup_nil_2].
    intros e. rewrite elem_of_nil. (intuition (subst; eauto; congruence)).
Qed.
End Queries.

Lemma C9_witness :
  Reach recycling
  ∧ StronglySorted N.lt (entities_with_component recycling "U32").
Proof.
  split; [exact recycling_reach|].
  exact (proj1 (proj2 (proj2
    (C9_entities_with_component _ "U32"%string recycling_reach)))).
Defined.

(** ** Killing and binding *)

Section KillBind.
Context {V : Type}.
Implicit Types (r : Registry V) (e x i d : N) (T : string) (v : V).

(** C6: in a state that satisfies the invariant, [kill_entity] on an
    entity that is not alive changes nothing; on a live entity it
    leaves the entity dead and without a component of any type. *)
Theorem C6_kill_entity r e :
  Registry_wf r →
  (is_alive r e = false → kill_entity r e = r)
  ∧ (is_alive r e = true →
     is_alive (kill_entity r e) e = false
     ∧ ∀ T, has_component (kill_entity r e) T e = false).
Proof.
  intros Hwf. split; [apply kill_entity_dead|]. intros He. split.
  - destruct (rwf_alloc r Hwf) as [l Hal].
    pose proof (mark_as_death_wf r l e Hal He) as Hal'.
    rewrite kill_entity_alive by done.
    rewrite (is_alive_ext _ (mark_as_death r e)) by done.
    apply (awf_dead _ _ Hal'), list_elem_of_here.
  - intros T. rewrite has_component_kill by done. by case_decide.
Qed.

(** In a state whose entity array has at most [MAX_ID] slots,
    [MAX_ID] is not alive and [registry_bind] reports no
    [INVALID_KEY]. *)
Lemma registry_bind_not_invalid_key r T e v r' res :
  size (entities_ r) ≤ MAX_ID →
  registry_bind r T e v = Some (r', res) → res ≠ Some INVALID_KEY.
Proof.
  intros Hbound. destruct (is_alive r e) eqn:He.
  - rewrite registry_bind_alive by done.
    destruct (bind _ e v) as [[m1 res1]|] eqn:Hb; [simpl|done].
    intros [= <- <-]. apply bind_ok in Hb as ->; [done|].
    apply is_alive_lt in He. lia.
  - rewrite registry_bind_dead by done. by intros [= <- <-].
Qed.



End KillBind.

(** ** A registry with every id in use *)





Lemma recycling_wf : Registry_wf recycling.
Proof. apply Reach_wf, recycling_reach. Qed.

Lemma C6_witness :
  Registry_wf recycling
  ∧ is_alive recycling 3 = true
  ∧ is_alive (kill_entity recycling 3) 3 = false
  ∧ has_component (kill_entity recycling 3) "U32" 3 = false.
Proof.
  assert (is_alive recycling 3 = true) as Halive
    by (vm_compute; reflexivity).
  pose proof (proj2 (C6_kill_entity _ 3 recycling_wf) Halive) as [Hdead Hnone].
  exact (conj recycling_wf (conj Halive (conj Hdead (Hnone "U32"%string)))).
Defined.


(** ** Recycling *)

Section Recycling.
Context {V : Type}.
Implicit Types (r : Registry V) (e k x : N) (ks : list N) (n m : nat).

Lemma same_allocator_refl r : same_allocator r r.
Proof. done. Qed.

Lemma same_allocator_trans r1 r2 r3 :
  same_allocator r1 r2 → same_allocator r2 r3 → same_allocator r1 r3.
Proof. intros [H1 H2] [H3 H4]. split; congruence. Qed.

Lemma make_entity_same r r' :
  same_allocator r r' →
  fst (make_entity r) = fst (make_entity r')
  ∧ same_allocator (snd (make_entity r)) (snd (make_entity r')).
Proof.
  intros [He Hc]. unfold make_entity, make_new_entity, recycle_entity, same_allocator.
  rewrite He, Hc. by destruct (current_ r' =? MAX_ID).
Qed.

Lemma make_entities_S n r :
  make_entities (S n) r =
  (fst (make_entity r) :: fst (make_entities n (snd (make_entity r))),
   snd (make_entities n (snd (make_entity r)))).
Proof.
  simpl. destruct (make_entity r) as [e r1]. simpl.
  by destruct (make_entities n r1).
Qed.

Lemma make_entities_same n r r' :
  same_allocator r r' →
  fst (make_entities n r) = fst (make_entities n r')
  ∧ same_allocator (snd (make_entities n r)) (snd (make_entities n r')).
Proof.
  revert r r'. induction n as [|n IH]; intros r r' Hsame; [done|].
  rewrite !make_entities_S. cbn [fst snd].
  destruct (make_entity_same r r' Hsame) as [-> Hsame'].
  destruct (IH _ _ Hsame') as [-> ?]. done.
Qed.

Lemma make_entities_add n m r :
  fst (make_entities (n + m) r)
  = fst (make_entities n r) ++ fst (make_entities m (snd (make_entities n r)))
  ∧ snd (make_entities (n + m) r)
    = snd (make_entities m (snd (make_entities n r))).
Proof.
  revert r. induction n as [|n IH]; intros r; [done|].
  rewrite Nat.add_succ_l, !make_entities_S. cbn [fst snd].
  destruct (IH (snd (make_entity r))) as [-> ->]. done.
Qed.

(** The entity killed last is the one that comes back first, and the
    allocator is then as it was before the kill. *)
Lemma make_entity_kill_entity r k :
  size (entities_ r) ≤ MAX_ID → is_alive r k = true →
  fst (make_entity (kill_entity r k)) = k
  ∧ same_allocator (snd (make_entity (kill_entity r k))) r.
Proof.
  intros Hbound Hk. pose proof (is_alive_lt r k Hk) as Hlt.
  rewrite kill_entity_alive by done.
  unfold make_entity, delete_all_components, mark_as_death. cbn [current_].
  destruct (N.eqb_spec k MAX_ID) as [->|_]; [lia|].
  unfold recycle_entity, same_allocator. cbn [fst snd current_ entities_].
  split; [done|]. split.
  - unfold vset. rewrite list_insert_insert_eq. apply vset_id.
    by apply is_alive_true.
  - by apply vget_vset_eq.
Qed.

Lemma kill_entity_size r k : size (entities_ (kill_entity r k)) = size (entities_ r).
Proof.
  unfold kill_entity. destruct (is_alive r k); [|done]. simpl. apply size_vset.
Qed.

Lemma recycle_reverse ks r :
  size (entities_ r) ≤ MAX_ID → NoDup ks →
  (∀ k, k ∈ ks → is_alive r k = true) →
  fst (make_entities (length ks) (kill_entities ks r)) = reverse ks
  ∧ same_allocator (snd (make_entities (length ks) (kill_entities ks r))) r.
Proof.
  revert r. induction ks as [|k ks IH]; intros r Hbound Hnd Halive; [done|].
  apply NoDup_cons in Hnd as [Hk Hnd].
  assert (is_alive r k = true) as Hka by apply Halive, list_elem_of_here.
  destruct (IH (kill_entity r k)) as [Hids Hsame]; [|done| |].
  { by rewrite kill_entity_size. }
  { intros k' Hk'. rewrite is_alive_kill_other by (by intros ->).
    by apply Halive, list_elem_of_further. }
  change (kill_entities (k :: ks) r) with (kill_entities ks (kill_entity r k)).
  replace (length (k :: ks)) with (length ks + 1)%nat by (simpl; lia).
  destruct (make_entities_add (length ks) 1 (kill_entities ks (kill_entity r k)))
    as [-> ->].
  rewrite Hids, reverse_cons.
  destruct (make_entities_same 1 _ _ Hsame) as [-> Hsame1].
  rewrite !make_entities_S in *. cbn [fst snd make_entities] in *.
  destruct (make_entity_kill_entity r k Hbound Hka) as [-> Hback].
  split; [done|]. by eapply same_allocator_trans.
Qed.

(** With an empty free chain, the ids are fresh and ascend from the
    length of the entity array. *)
Lemma make_entities_fresh m r :
  current_ r = MAX_ID → size (entities_ r) + N.of_nat m ≤ MAX_ID →
  fst (make_entities m r) = (λ j, size (entities_ r) + N.of_nat j) <$> seq 0 m.
Proof.
  revert r. induction m as [|m IH]; intros r Hc Hroom; [done|].
  rewrite make_entities_S. cbn [fst].
  unfold make_entity. rewrite Hc, N.eqb_refl.
  unfold make_new_entity. cbn [fst snd]. rewrite to_id_small by lia.
  rewrite IH; cbn [current_ entities_]; [|done|rewrite size_snoc; lia].
  simpl. f_equal; [lia|].
  rewrite <- fmap_S_seq, <- list_fmap_compose.
  apply list_fmap_ext. intros _ j _. simpl. rewrite size_snoc. lia.
Qed.

(** C5: in a state whose entity array has at most [MAX_ID] slots,
    after kills of distinct live entities the next calls of
    [make_entity] return them in reverse order and put the entity
    array and the head of the free chain back; when the free chain
    was empty before the kills, the calls that follow return fresh
    ids ascending from the length of the entity array. *)
Theorem C5_recycle_order r ks m :
  size (entities_ r) ≤ MAX_ID → NoDup ks →
  (∀ k, k ∈ ks → is_alive r k = true) →
  fst (make_entities (length ks) (kill_entities ks r)) = reverse ks
  ∧ same_allocator (snd (make_entities (length ks) (kill_entities ks r))) r
  ∧ (current_ r = MAX_ID → size (entities_ r) + N.of_nat m ≤ MAX_ID →
     recycle_order_as_stated r ks m).
Proof.
  intros Hbound Hnd Halive.
  destruct (recycle_reverse ks r Hbound Hnd Halive) as [Hids Hsame].
  split_and!; [done..|]. intros Hc Hroom. unfold recycle_order_as_stated.
  destruct (make_entities_add (length ks) m (kill_entities ks r)) as [-> _].
  rewrite Hids. f_equal.
  destruct (make_entities_same m _ _ Hsame) as [-> _].
  by apply make_entities_fresh.
Qed.
End Recycling.

(** [all_alive n] is the state after [n] calls of [make_entity] on the
    fresh registry, up to the [2^32] calls that take every id. *)
Lemma make_entities_all_alive (n : nat) :
  N.of_nat n ≤ 4294967296 →
  snd (make_entities n (@empty_registry string)) = all_alive (N.of_nat n).
Proof.
  induction n as [|n IH]; intros Hn.
  - reflexivity.
  - replace (S n) with (n + 1)%nat by lia.
    destruct (make_entities_add n 1 (@empty_registry string)) as [_ ->].
    rewrite IH by lia. rewrite make_entities_S. cbn [snd make_entities].
    unfold make_entity, all_alive. cbn [current_].
    change (MAX_ID =? MAX_ID) with true. cbv iota.
    unfold make_new_entity. cbn [snd current_ entities_ component_managers_].
    f_equal. unfold size. rewrite length_fmap, length_seq, !Nat2N.id.
    rewrite to_id_small by (unfold MAX_ID; lia).
    replace (n + 1)%nat with (S n) by lia. by rewrite seq_S, fmap_app.
Qed.

(** C5, as stated: with entity 0 already on the free chain, killing
    entity 1 and calling [make_entity] twice returns 1 and then 0, not
    the fresh id 2. *)
Lemma C5_counterexample :
  run_registry one_dead_ops = Some one_dead
  ∧ is_alive one_dead 1 = true
  ∧ ¬ recycle_order_as_stated one_dead [1] 1.
Proof.
  split; [vm_compute; reflexivity|]. split; [vm_compute; reflexivity|].
  unfold recycle_order_as_stated. intros H. vm_compute in H. discriminate H.
Qed.

Lemma C5_witness :
  size (entities_ scenario) ≤ MAX_ID
  ∧ NoDup [1; 0]
  ∧ (∀ k, k ∈ [1; 0] → is_alive scenario k = true)
  ∧ fst (make_entities 2 (kill_entities [1; 0] scenario))
    = [0; 1]
  ∧ recycle_order_as_stated scenario [1; 0] 2.
Proof.
  assert (size (entities_ scenario) ≤ MAX_ID) as Hbound
    by (vm_compute; discriminate).
  assert (NoDup [1; 0]) as Hnd.
  { apply NoDup_cons. split; [|apply NoDup_singleton].
    by intros [=]%list_elem_of_singleton. }
  assert (∀ k, k ∈ [1; 0] → is_alive scenario k = true)
    as Halive.
  { intros k Hk. apply elem_of_cons in Hk as [->|Hk]; [vm_compute; reflexivity|].
    apply list_elem_of_singleton in Hk as ->. vm_compute; reflexivity. }
  assert (current_ scenario = MAX_ID) as Hc
    by (vm_compute; reflexivity).
  assert (size (entities_ scenario) + N.of_nat 2 ≤ MAX_ID)
    as Hroom by (vm_compute; discriminate).
  pose proof (C5_recycle_order _ [1; 0] 2 Hbound Hnd Halive) as (Hids & _ & Hfresh).
  exact (conj Hbound (conj Hnd (conj Halive (conj Hids (Hfresh Hc Hroom))))).
Defined.

(** ** The tuples of a query *)

Section QueryTuples.
Context {V : Type}.
Implicit Types (r : Registry V) (e : N) (T : string) (W B : list string).

Lemma get_component_has r T e :
  Registry_wf r → has_component r T e = true → is_Some (get_component r T e).
Proof.
  intros Hwf (m & Hm & Hhas)%has_component_true.
  unfold get_component, get_component_manager, get_data. rewrite Hm, Hhas.
  pose proof (rwf_stores r Hwf T m Hm) as Hmwf.
  destruct (wf_has_dense m e Hmwf Hhas) as [Hd _].
  apply vlook_is_Some. apply vlook_lt in Hd.
  unfold size in *. by rewrite <- (wf_len m Hmwf).
Qed.

Lemma convert_and_unwrapp_has r W e :
  Registry_wf r → has_components r W e = true →
  is_Some (convert_and_unwrapp r W e).
Proof.
  intros Hwf Hhas. apply mapM_is_Some, Forall_forall. intros T HT. simpl.
  apply get_component_has; [done|].
  rewrite has_components_true in Hhas. by apply Hhas.
Qed.

(** C2: in a reachable state [query] unwraps no empty optional; it
    returns one tuple per selected entity, in the order of the
    selected ids, which is strictly ascending, and the tuple has one
    field per type of [W], in the order of [W]: the component of that
    type bound to the entity.  The tuple does not hold the entity
    id. *)
Theorem C2_query_tuples r W B :
  Reach r →
  ∃ tuples,
    query r W B = Some tuples
    ∧ StronglySorted N.lt (required_entities r W B)
    ∧ length tuples = length (required_entities r W B)
    ∧ Forall2 (λ e t, Forall2 (λ T c, get_component r T e = Some c) W t)
              (required_entities r W B) tuples
    ∧ Forall (λ t, length t = length W) tuples.
Proof.
  intros Hwf%Reach_wf.
  destruct (required_entities_spec r W B Hwf) as [Hsorted Hmem].
  assert (is_Some (query r W B)) as [tuples Hq].
  { apply mapM_is_Some, Forall_forall. intros e He. simpl.
    apply convert_and_unwrapp_has; [done|]. by apply Hmem in He as (_ & _ & ? & _). }
  exists tuples. split; [done|].
  apply mapM_Some_1 in Hq.
  assert (Forall2 (λ e t, Forall2 (λ T c, get_component r T e = Some c) W t)
            (required_entities r W B) tuples) as Hall.
  { eapply Forall2_impl; [exact Hq|]. intros e t Ht. by apply mapM_Some_1 in Ht. }
  split; [done|]. split; [symmetry; by eapply Forall2_length|].
  split; [done|].
  apply Forall_forall. intros t Ht.
  apply list_elem_of_lookup in Ht as [i Hi].
  destruct (Forall2_lookup_r _ _ _ _ _ Hall Hi) as (e & _ & Het).
  symmetry. by eapply Forall2_length.
Qed.
End QueryTuples.

(** C2, as stated: the tuples of the query for [U32] and [Vec2] have two
    fields, the two components, and not the three that an entity id in
    front would make. *)
Lemma C2_counterexample :
  run_registry scenario_ops = Some scenario
  ∧ query scenario ["U32"; "Vec2"]%string []
    = Some [["u0"; "v0"]; ["u1"; "v1"]]%string
  ∧ ¬ Forall (λ t, length t = stated_tuple_arity ["U32"; "Vec2"]%string)
             [["u0"; "v0"]; ["u1"; "v1"]]%string.
Proof.
  split; [vm_compute; reflexivity|]. split; [vm_compute; reflexivity|].
  intros H. apply Forall_cons in H as [H _]. discriminate H.
Qed.

Lemma C2_witness :
  Reach scenario
  ∧ ∃ tuples,
      query scenario ["U32"; "Vec2"]%string ["Char"%string] = Some tuples
      ∧ StronglySorted N.lt
          (required_entities scenario ["U32"; "Vec2"]%string ["Char"%string])
      ∧ Forall (λ t, length t = 2%nat) tuples.
Proof.
  split; [exact scenario_reach|].
  destruct (C2_query_tuples scenario
              ["U32"; "Vec2"]%string ["Char"%string] scenario_reach)
    as (tuples & Hq & Hsorted & _ & _ & Hlen).
  exists tuples. exact (conj Hq (conj Hsorted Hlen)).
Defined.

(** C1: entity 0 has a [Char], one of the two types of the must-not-have
    list, and [query] selects it all the same: an entity is left out
    only when it has every type of the list. *)
Theorem C1_exclusion_takes_every_type :
  run_registry scenario_ops = Some scenario
  ∧ has_component scenario "Char" 0 = true
  ∧ required_entities scenario
      ["U32"; "Vec2"]%string ["Char"; "Vec3"]%string = [0; 1].
Proof. repeat apply conj; vm_compute; reflexivity. Qed.

(** * Further properties of the code *)

(** ** Values of a sparse set *)

Section SparseSetData.
Context {T : Type}.
Implicit Types (s : SparseSet T) (key k i : N) (v w : T).

Lemma vget_ext (l l' : list N) i : vlook l i = vlook l' i → vget l i = vget l' i.
Proof. unfold vget, vlook. intros H. by rewrite !list_lookup_total_alt, H. Qed.

Lemma vswap_same {A} (l : list A) i : vswap l i i = l.
Proof.
  unfold vswap. destruct (vlook l i) as [x|] eqn:Hx; [|done].
  rewrite (vset_id l i x Hx). by apply vset_id.
Qed.

Lemma pop_back_snoc {A} (l : list A) x : pop_back (l ++ [x]) = l.
Proof.
  unfold pop_back. rewrite length_app. simpl.
  replace (pred (length l + 1)) with (length l) by lia. apply take_app_length.
Qed.

Lemma has_data_sparse s s' k : sparse_ s = sparse_ s' → has_data s k = has_data s' k.
Proof. unfold has_data, out_of_bounds. by intros ->. Qed.

Lemma get_data_Some s k w :
  get_data s k = Some w ↔
  ∃ i, vlook (sparse_ s) k = Some i ∧ i ≠ MAX_ID ∧ vlook (data_ s) i = Some w.
Proof.
  unfold get_data. destruct (has_data s k) eqn:Hhas.
  - apply has_data_true in Hhas as (i & Hi & Hne).
    rewrite (vget_vlook _ _ _ Hi). split.
    + intros Hw. by exists i.
    + intros (j & Hj & _ & Hw). by simplify_eq.
  - split; [done|]. intros (i & Hi & Hne & _).
    assert (has_data s k = true) by (apply has_data_true; eauto). congruence.
Qed.

Lemma size_data s : SparseSet_wf s → size (data_ s) = size (dense_ s).
Proof. intros Hwf. unfold size. by rewrite (wf_len s Hwf). Qed.

Lemma get_data_has s k :
  SparseSet_wf s → has_data s k = true → is_Some (get_data s k).
Proof.
  intros Hwf Hhas. unfold get_data. rewrite Hhas.
  destruct (wf_has_dense s k Hwf Hhas) as [Hd _].
  apply vlook_is_Some. rewrite size_data by done. by eapply vlook_lt.
Qed.

Lemma get_data_no_data s k : has_data s k = false → get_data s k = None.
Proof. intros H. unfold get_data. by rewrite H. Qed.

Lemma get_data_grown s key s1 k :
  key < MAX_ID → grown s key = Some s1 → get_data s1 k = get_data s k.
Proof.
  intros Hlt Hg. unfold get_data.
  rewrite (has_data_grown s key s1 k), (data_grown s key s1) by done.
  destruct (has_data s k) eqn:Hhas; [|done]. f_equal.
  apply vget_ext, (vlook_grown_old s key); [done..|]. by apply has_data_lt.
Qed.

Lemma get_data_bound_eq s1 key v :
  SparseSet_wf s1 → key < size (sparse_ s1) →
  get_data (bound s1 key v) key = Some v.
Proof.
  intros Hwf1 Hin. unfold bound.
  destruct (has_data s1 key) eqn:Hhas; cbn [negb]; apply get_data_Some.
  - pose proof Hhas as (i & Hi & Hne)%has_data_true.
    pose proof (wf_sparse s1 Hwf1 key i Hi Hne) as Hd.
    exists i. cbn [sparse_ data_]. split_and!; [done..|].
    rewrite (vget_vlook _ _ _ Hi). apply vlook_vset_eq.
    rewrite size_data by done. by eapply vlook_lt.
  - pose proof (wf_room s1 key Hwf1 Hin Hhas) as Hroom.
    rewrite to_id_small by lia. exists (size (dense_ s1)).
    cbn [sparse_ data_]. split_and!.
    + by apply vlook_vset_eq.
    + lia.
    + rewrite <- size_data by done. apply vlook_snoc_eq.
Qed.

Lemma get_data_bound_ne s1 key v k :
  SparseSet_wf s1 → key < size (sparse_ s1) → k ≠ key →
  get_data (bound s1 key v) k = get_data s1 k.
Proof.
  intros Hwf1 Hin Hk. unfold bound.
  apply option_eq. intros w. rewrite !get_data_Some.
  destruct (has_data s1 key) eqn:Hhas; cbn [negb sparse_ data_].
  - pose proof Hhas as (i & Hi & Hne)%has_data_true.
    pose proof (wf_sparse s1 Hwf1 key i Hi Hne) as Hd.
    rewrite (vget_vlook _ _ _ Hi).
    split; intros (j & Hj & Hnj & Hw); exists j; split_and!; try done.
    + rewrite vlook_vset_ne in Hw; [done|]. intros ->.
      pose proof (wf_sparse s1 Hwf1 k j Hj Hnj). congruence.
    + rewrite vlook_vset_ne; [done|]. intros ->.
      pose proof (wf_sparse s1 Hwf1 k j Hj Hnj). congruence.
  - rewrite to_id_small
      by (pose proof (wf_room s1 key Hwf1 Hin Hhas); lia).
    split; intros (j & Hj & Hnj & Hw); exists j.
    + rewrite vlook_vset_ne in Hj by done. split_and!; [done..|].
      pose proof (wf_sparse s1 Hwf1 k j Hj Hnj) as Hd%vlook_lt.
      rewrite vlook_snoc_lt in Hw; [done|]. by rewrite size_data.
    + rewrite vlook_vset_ne by done. split_and!; [done..|].
      rewrite vlook_snoc_lt; [done|]. by eapply vlook_lt.
Qed.

(** [bind] with a key below [MAX_ID] that is in reach, with the state
    it looks the key up in. *)
Lemma bind_in_reach_Some s key v :
  SparseSet_wf s → key < MAX_ID → key ≤ size (sparse_ s) →
  ∃ s1, grown s key = Some s1 ∧ bind s key v = Some (bound s1 key v, None)
        ∧ SparseSet_wf s1 ∧ key < size (sparse_ s1).
Proof.
  intros Hwf Hlt Hle.
  destruct (bind_is_Some s key v Hlt Hle) as (s1 & Hg & Hb).
  exists s1. split_and!; [done..| |].
  - by eapply grown_wf.
  - by eapply grown_in_bounds.
Qed.

(** [unbind] on a key that has data, with the cells it reads named. *)
Lemma unbind_present s key :
  SparseSet_wf s → has_data s key = true →
  ∃ i b x y,
    vlook (sparse_ s) key = Some i ∧ i ≠ MAX_ID
    ∧ vlook (dense_ s) i = Some key
    ∧ vlook (dense_ s) (size (dense_ s) - 1) = Some b
    ∧ vlook (sparse_ s) b = Some (size (dense_ s) - 1)
    ∧ vlook (data_ s) i = Some x
    ∧ vlook (data_ s) (size (dense_ s) - 1) = Some y
    ∧ unbind s key =
      ({| sparse_ := vset (vset (sparse_ s) b i) key MAX_ID;
          dense_ := pop_back (vswap (dense_ s) i (size (dense_ s) - 1));
          data_ := pop_back (vswap (data_ s) i (size (dense_ s) - 1)) |},
       Some x).
Proof.
  intros Hwf Hhas.
  destruct (unbind_cells s key Hwf Hhas) as (i & b & Hi & Hne & Hd & Hb & Hsb & Hlt).
  pose proof (size_data s Hwf) as Hsz.
  destruct (vlook_is_Some (data_ s) i) as [x Hx]; [lia|].
  destruct (vlook_is_Some (data_ s) (size (dense_ s) - 1)) as [y Hy]; [lia|].
  exists i, b, x, y. split_and!; try done.
  unfold unbind. rewrite Hhas. cbv zeta. unfold back at 1. rewrite Hb.
  rewrite (vget_vlook _ _ _ Hi), Hsz. simpl. f_equal.
  unfold back. rewrite size_vswap, Hsz. by eapply vlook_vswap_r.
Qed.

Lemma unbind_value s key : SparseSet_wf s → snd (unbind s key) = get_data s key.
Proof.
  intros Hwf. destruct (has_data s key) eqn:Hhas.
  - destruct (unbind_present s key Hwf Hhas)
      as (i & b & x & y & Hi & Hne & _ & _ & _ & Hx & _ & ->).
    symmetry. apply get_data_Some. exists i. by split_and!.
  - by rewrite unbind_absent, get_data_no_data.
Qed.

Lemma get_data_unbind_eq s key :
  SparseSet_wf s → get_data (fst (unbind s key)) key = None.
Proof.
  intros Hwf. apply get_data_no_data. rewrite has_data_unbind by done.
  by rewrite decide_True.
Qed.

Lemma get_data_unbind_ne s key k :
  SparseSet_wf s → k ≠ key → get_data (fst (unbind s key)) k = get_data s k.
Proof.
  intros Hwf Hk. destruct (has_data s key) eqn:Hhas; [|by rewrite unbind_absent].
  destruct (unbind_present s key Hwf Hhas)
    as (i & b & x & y & Hi & Hne & Hd & Hb & Hsb & Hx & Hy & ->).
  pose proof (size_data s Hwf) as Hsz.
  pose proof (vlook_lt _ _ _ Hd) as Hilt.
  cbn [fst]. apply option_eq. intros w. rewrite !get_data_Some.
  cbn [sparse_ data_]. rewrite vlook_vset_ne by done.
  destruct (decide (b = k)) as [->|Hbk].
  - assert (i ≠ size (dense_ s) - 1) as Hil by (intros ->; congruence).
    rewrite vlook_vset_eq by (by eapply vlook_lt).
    split.
    + intros (j & [= <-] & _ & Hw). exists (size (dense_ s) - 1).
      split_and!; [done| |].
      { pose proof (wf_size_dense s Hwf). pose proof (wf_bound s Hwf). lia. }
      rewrite vlook_pop_back_lt in Hw by (rewrite size_vswap; lia).
      rewrite (vlook_vswap_l _ _ _ _ _ Hx Hy) in Hw. congruence.
    + intros (j & Hj & _ & Hw). exists i. split_and!; [done..|].
      rewrite vlook_pop_back_lt by (rewrite size_vswap; lia).
      rewrite (vlook_vswap_l _ _ _ _ _ Hx Hy). congruence.
  - rewrite vlook_vset_ne by done.
    split; intros (j & Hj & Hnj & Hw); exists j; split_and!; try done.
    + pose proof (wf_sparse s Hwf k j Hj Hnj) as Hdj.
      apply vlook_pop_back_Some in Hw as [_ Hw].
      rewrite vlook_vswap_ne in Hw; [done| |]; intros ->; congruence.
    + pose proof (wf_sparse s Hwf k j Hj Hnj) as Hdj.
      pose proof (vlook_lt _ _ _ Hdj).
      assert (j ≠ i) by (intros ->; congruence).
      assert (j ≠ size (dense_ s) - 1) by (intros ->; congruence).
      rewrite vlook_pop_back_lt by (rewrite size_vswap; lia).
      by rewrite vlook_vswap_ne.
Qed.

(** [bind] with a key below [MAX_ID] that is inside the sparse array
    or the next after its end has a result and reports no error; it
    gives the key the new value and leaves the value of every other
    key as it was. *)
Theorem bind_then_get_data s key v :
  SparseSet_wf s → key < MAX_ID → key ≤ size (sparse_ s) →
  ∃ s', bind s key v = Some (s', None)
        ∧ get_data s' key = Some v
        ∧ ∀ k, k ≠ key → get_data s' k = get_data s k.
Proof.
  intros Hwf Hlt Hle.
  destruct (bind_in_reach_Some s key v Hwf Hlt Hle) as (s1 & Hg & Hb & Hwf1 & Hin).
  exists (bound s1 key v). split_and!.
  - done.
  - by apply get_data_bound_eq.
  - intros k Hk. rewrite get_data_bound_ne by done.
    by apply (get_data_grown s key).
Qed.

(** [unbind] returns what [get_data] returned for the key (nothing when
    the key had no data), leaves the key without data, and leaves the
    value of every other key as it was, also of the key whose value was
    moved into the freed cell. *)
Theorem unbind_then_get_data s key :
  SparseSet_wf s →
  snd (unbind s key) = get_data s key
  ∧ get_data (fst (unbind s key)) key = None
  ∧ ∀ k, k ≠ key → get_data (fst (unbind s key)) k = get_data s k.
Proof.
  intros Hwf. split_and!.
  - by apply unbind_value.
  - by apply get_data_unbind_eq.
  - intros k Hk. by apply get_data_unbind_ne.
Qed.

(** A second [unbind] of the same key returns nothing and changes
    nothing. *)
Theorem unbind_twice s key :
  SparseSet_wf s →
  unbind (fst (unbind s key)) key = (fst (unbind s key), None).
Proof.
  intros Hwf. apply unbind_absent. rewrite has_data_unbind by done.
  by rewrite decide_True.
Qed.

(** Binding a key of the sparse array that has no data and unbinding it
    again gives the value back and the very state from before. *)
Theorem bind_unbind_restores s key v :
  SparseSet_wf s → key < size (sparse_ s) → has_data s key = false →
  ∃ s', bind s key v = Some (s', None) ∧ unbind s' key = (s, Some v).
Proof.
  intros Hwf Hin Hno.
  pose proof (wf_bound s Hwf) as Hbound.
  pose proof (wf_room s key Hwf Hin Hno) as Hroom.
  pose proof (size_data s Hwf) as Hsz.
  assert (vlook (sparse_ s) key = Some MAX_ID) as Hnull.
  { apply has_data_false in Hno as [?|?]; [lia|done]. }
  assert (grown s key = Some s) as Hg.
  { unfold grown, out_of_bounds.
    destruct (N.leb_spec (size (sparse_ s)) key); [lia|done]. }
  eexists. split.
  { rewrite bind_unfold, is_null_key_lt by lia. rewrite Hg. reflexivity. }
  unfold bound. rewrite Hno. cbn [negb]. rewrite to_id_small by lia.
  unfold unbind.
  assert (has_data
    {| sparse_ := vset (sparse_ s) key (size (dense_ s));
       dense_ := dense_ s ++ [key]; data_ := data_ s ++ [v] |} key = true) as ->.
  { apply has_data_true. exists (size (dense_ s)). cbn [sparse_].
    split; [by apply vlook_vset_eq|lia]. }
  cbv zeta. cbn [sparse_ dense_ data_].
  rewrite back_snoc. cbn [default].
  rewrite (vget_vlook _ _ (size (dense_ s))) by (by apply vlook_vset_eq).
  rewrite !size_snoc, Hsz.
  replace (size (dense_ s) + 1 - 1) with (size (dense_ s)) by lia.
  rewrite !vswap_same, !pop_back_snoc.
  rewrite <- Hsz, back_snoc.
  unfold vset. rewrite !list_insert_insert_eq.
  fold (vset (sparse_ s) key MAX_ID). rewrite (vset_id _ _ _ Hnull).
  by destruct s.
Qed.

(** [dense_] lists the keys that have data, each once. *)
Theorem dense_lists_the_bound_keys s :
  SparseSet_wf s →
  NoDup (dense_ s) ∧ ∀ k, k ∈ dense_ s ↔ has_data s k = true.
Proof.
  intros Hwf. split; [by apply wf_NoDup|]. intros k. split.
  - intros [i Hi]%list_elem_of_lookup.
    apply (wf_dense_has s (N.of_nat i)); [done|].
    unfold vlook. by rewrite Nat2N.id.
  - intros Hhas. destruct (wf_has_dense s k Hwf Hhas) as [Hd _].
    by eapply list_elem_of_lookup_2.
Qed.

(** The sizes after an operation that has its key in reach: the
    operation has a result, [sparse_] does not shrink and gains a cell
    when the key of a [bind] is the next after its end; [dense_] gains
    a cell when a key without data is bound and loses one when a key
    with data is unbound. *)
Theorem sizes_after_operation s (o : set_op T) :
  SparseSet_wf s → op_key o < MAX_ID → key_in_reach s o →
  ∃ s', apply_op s o = Some s'
    ∧ match o with
      | OpBind e _ =>
          size (sparse_ s') = N.max (size (sparse_ s)) (e + 1)
          ∧ size (dense_ s') = size (dense_ s) + (if has_data s e then 0 else 1)
      | OpUnbind e =>
          size (sparse_ s') = size (sparse_ s)
          ∧ size (dense_ s') = size (dense_ s) - (if has_data s e then 1 else 0)
      end.
Proof.
  intros Hwf Hlt Hk. destruct o as [e v|e]; simpl in *.
  - destruct Hk as [Hle|?]; [|lia].
    destruct (bind_in_reach_Some s e v Hwf Hlt Hle)
      as (s1 & Hg & -> & Hwf1 & Hin).
    eexists. split; [done|]. unfold bound.
    rewrite (has_data_grown s e s1 e Hlt Hg).
    destruct (has_data s e); cbn [negb fst sparse_ dense_].
    + rewrite (size_grown s e s1), (dense_grown s e s1) by done. split; lia.
    + by rewrite size_vset, size_snoc, (size_grown s e s1),
        (dense_grown s e s1) by done.
  - eexists. split; [done|]. destruct (has_data s e) eqn:Hhas.
    + destruct (unbind_present s e Hwf Hhas)
        as (i & b & x & y & _ & _ & _ & _ & _ & _ & _ & ->).
      cbn [fst sparse_ dense_].
      by rewrite !size_vset, size_pop_back, size_vswap.
    + rewrite unbind_absent by done. simpl. split; [done|lia].
Qed.

(** Whatever is bound and unbound with the keys in reach, also with
    [MAX_ID] as the key, the sequence has a result, the invariant
    holds of it and [MAX_ID] has no data. *)
Theorem null_key_never_has_data (ops : list (set_op T)) :
  keys_in_reach empty_set ops →
  ∃ s, run_ops ops = Some s
       ∧ SparseSet_wf s
       ∧ has_data s MAX_ID = false
       ∧ get_data s MAX_ID = None.
Proof.
  intros Hops.
  destruct (run_ops_from_in_reach ops empty_set empty_set_wf Hops)
    as (s & Hs & Hwf).
  exists s. split_and!; [done|done|by apply has_data_MAX_ID|].
  apply get_data_no_data. by apply has_data_MAX_ID.
Qed.

(** On a sparse set that starts empty, after each operation of a
    sequence of [bind]s and [unbind]s whose keys are in reach, there is
    a state, [sparse_] and [dense_] are inverse to each other in it,
    [dense_] and [data_] have the same length and no id occurs twice
    in [dense_]. *)
Theorem invariants_along_a_run (ops : list (set_op T)) (n : nat) :
  keys_in_reach empty_set ops →
  ∃ s, run_ops (take n ops) = Some s ∧ sparse_dense_inverse s.
Proof.
  intros Hops.
  destruct (run_ops_from_in_reach (take n ops) empty_set empty_set_wf)
    as (s & Hs & Hwf); [by apply keys_in_reach_take|].
  exists s. split; [done|]. by apply wf_inverse.
Qed.

(** [bind] with a key below [MAX_ID] has a result exactly when the key
    is inside the sparse array or the next after its end; past that,
    the [fill] of [rezise] writes as many cells past the end of the
    array as the key lies past the next one. *)
Theorem bind_result_exactly_in_reach s key v :
  key < MAX_ID →
  (is_Some (bind s key v) ↔ key ≤ size (sparse_ s))
  ∧ bind_overrun s key = key - size (sparse_ s)
  ∧ (size (sparse_ s) ≤ key →
     size (filled (rezise_fill s key)) = key + 1).
Proof.
  intros Hlt. split_and!.
  - split.
    + intros [[s' res] Hb]. by eapply bind_in_reach.
    + intros Hle. destruct (bind_is_Some s key v Hlt Hle) as (s1 & _ & ->).
      by eexists.
  - destruct (decide (size (sparse_ s) ≤ key)) as [Hge|Hin].
    + by apply bind_overrun_gap.
    + unfold bind_overrun, out_of_bounds. rewrite is_null_key_lt by done.
      destruct (N.leb_spec (size (sparse_ s)) key); lia.
  - intros Hge. rewrite rezise_sparse by done. unfold size.
    rewrite length_app, length_replicate. unfold size in Hge. lia.
Qed.
End SparseSetData.

(** ** Components through the registry *)

Section RegistryData.
Context {V : Type}.
Implicit Types (r : Registry V) (e x i : N) (T : string) (v w : V).

Lemma get_component_store r T e m :
  component_managers_ r !! T = Some m → get_component r T e = get_data m e.
Proof. intros Hm. unfold get_component, get_component_manager. by rewrite Hm. Qed.

Lemma get_component_no_store r T e :
  component_managers_ r !! T = None → get_component r T e = None.
Proof. intros Hm. unfold get_component, get_component_manager. by rewrite Hm. Qed.

Lemma get_component_default r T e :
  get_component r T e
  = get_data (default empty_set (component_managers_ r !! T)) e.
Proof.
  destruct (component_managers_ r !! T) as [m|] eqn:Hm; simpl.
  - by apply get_component_store.
  - rewrite get_component_no_store by done.
    symmetry. apply get_data_no_data, has_data_empty_set.
Qed.

Lemma has_component_get_component r T e :
  Registry_wf r → has_component r T e = true ↔ is_Some (get_component r T e).
Proof.
  intros Hwf. split; [by apply get_component_has|].
  intros [w Hw]. unfold has_component, get_component in *.
  destruct (get_component_manager r T) as [m|]; [|done].
  unfold get_data in Hw. by destruct (has_data m e).
Qed.

Lemma is_alive_kill_self r e :
  Registry_wf r → is_alive (kill_entity r e) e = false.
Proof.
  intros Hwf. destruct (is_alive r e) eqn:He; [|by rewrite kill_entity_dead].
  destruct (rwf_alloc r Hwf) as [l Hal].
  pose proof (mark_as_death_wf r l e Hal He) as Hal'.
  rewrite kill_entity_alive by done.
  rewrite (is_alive_ext _ (mark_as_death r e)) by done.
  apply (awf_dead _ _ Hal'), list_elem_of_here.
Qed.

(** [registry_bind] on a live entity whose id is inside the sparse
    array of the store of the type, or the next after its end (0 when
    there is no store yet), has a result and reports no error;
    [get_component] then returns the new value for this type and
    entity and what it returned before for every other type or entity,
    and no entity changes between alive and dead. *)
Theorem registry_bind_then_get_component r T e v :
  Registry_wf r → is_alive r e = true →
  e ≤ size (sparse_ (default empty_set (component_managers_ r !! T))) →
  ∃ r', registry_bind r T e v = Some (r', None)
    ∧ get_component r' T e = Some v
    ∧ (∀ T' e', T' ≠ T ∨ e' ≠ e →
         get_component r' T' e' = get_component r T' e')
    ∧ ∀ x, is_alive r' x = is_alive r x.
Proof.
  intros Hwf He Hle. destruct (rwf_alloc r Hwf) as [l Hal].
  pose proof (is_alive_not_null r l e Hal He) as Hlt.
  pose proof (store_default_wf r T Hwf) as Hm.
  destruct (bind_in_reach_Some _ e v Hm Hlt Hle) as (m1 & Hg & Hb & Hwf1 & Hin).
  pose proof (get_data_bound_eq m1 e v Hwf1 Hin) as Heq.
  assert (∀ k, k ≠ e → get_data (bound m1 e v) k
                       = get_data (default empty_set (component_managers_ r !! T)) k)
    as Hne.
  { intros k Hk. rewrite get_data_bound_ne by done.
    by apply (get_data_grown _ e). }
  rewrite registry_bind_alive by done. rewrite Hb. simpl.
  eexists. split; [done|]. split_and!.
  - erewrite get_component_store; [|cbn [component_managers_]; apply lookup_insert_eq].
    done.
  - intros T' e' Hother. destruct (decide (T' = T)) as [->|HT].
    + erewrite get_component_store; [|cbn [component_managers_]; apply lookup_insert_eq].
      rewrite Hne by (by destruct Hother).
      by rewrite <- get_component_default.
    + rewrite !get_component_default. cbn [component_managers_].
      by rewrite lookup_insert_ne.
  - intros x. by apply is_alive_ext.
Qed.

(** [registry_unbind] returns what [get_component] returned, whether or
    not the entity is alive; afterwards the entity has no component of
    the type, every other component is as before, and no entity
    changes between alive and dead. *)
Theorem registry_unbind_then_get_component r T e :
  Registry_wf r →
  snd (registry_unbind r T e) = get_component r T e
  ∧ get_component (fst (registry_unbind r T e)) T e = None
  ∧ (∀ T' e', T' ≠ T ∨ e' ≠ e →
       get_component (fst (registry_unbind r T e)) T' e' = get_component r T' e')
  ∧ ∀ x, is_alive (fst (registry_unbind r T e)) x = is_alive r x.
Proof.
  intros Hwf. destruct (component_managers_ r !! T) as [m|] eqn:Hm.
  - pose proof (rwf_stores r Hwf T m Hm) as Hmwf.
    rewrite (registry_unbind_some r T e m Hm). cbn [fst snd]. split_and!.
    + rewrite (get_component_store r T e m Hm). by apply unbind_value.
    + erewrite get_component_store; [|cbn [component_managers_]; apply lookup_insert_eq].
      by apply get_data_unbind_eq.
    + intros T' e' Hother. destruct (decide (T' = T)) as [->|HT].
      * erewrite get_component_store; [|cbn [component_managers_]; apply lookup_insert_eq].
        rewrite get_data_unbind_ne by (done || by destruct Hother).
        by rewrite (get_component_store r T e' m Hm).
      * rewrite !get_component_default. cbn [component_managers_].
        by rewrite lookup_insert_ne.
    + intros x. by apply is_alive_ext.
  - rewrite (registry_unbind_none r T e Hm). cbn [fst snd].
    by rewrite !(get_component_no_store r T _ Hm).
Qed.

(** [make_entity] returns an id other than [MAX_ID] that was not alive
    and is alive afterwards, without any component; every other entity
    stays as it was, alive or dead, and every component stays. *)
Theorem make_entity_gives_a_fresh_entity r :
  Registry_wf r → can_make r →
  fst (make_entity r) < MAX_ID
  ∧ is_alive r (fst (make_entity r)) = false
  ∧ is_alive (snd (make_entity r)) (fst (make_entity r)) = true
  ∧ (∀ T, get_component (snd (make_entity r)) T (fst (make_entity r)) = None)
  ∧ (∀ x, x ≠ fst (make_entity r) →
          is_alive (snd (make_entity r)) x = is_alive r x)
  ∧ ∀ T x, get_component (snd (make_entity r)) T x = get_component r T x.
Proof.
  intros Hwf Hcan. destruct (rwf_alloc r Hwf) as [l Hal].
  assert (∀ T x, get_component (snd (make_entity r)) T x = get_component r T x)
    as Hsame.
  { intros T x. unfold get_component, get_component_manager.
    by rewrite make_entity_managers. }
  assert (is_alive r (fst (make_entity r)) = false
          ∧ fst (make_entity r) < MAX_ID
          ∧ is_alive (snd (make_entity r)) (fst (make_entity r)) = true
          ∧ ∀ x, x ≠ fst (make_entity r) →
                 is_alive (snd (make_entity r)) x = is_alive r x)
    as (Hdead & Hlt & Halive & Hothers).
  { unfold make_entity. destruct (N.eqb_spec (current_ r) MAX_ID) as [Hc|Hc].
    - destruct Hcan as [?|Hroom]; [done|].
      unfold make_new_entity. cbn [fst snd]. rewrite to_id_small by lia.
      split_and!.
      + apply not_true_iff_false. intros H%is_alive_lt. lia.
      + done.
      + apply is_alive_true. cbn [entities_]. apply vlook_snoc_eq.
      + intros x Hx. apply eq_true_iff_eq. rewrite !is_alive_true.
        cbn [entities_]. split.
        * intros [[_ ?]|[? _]]%vlook_snoc_Some; done.
        * intros H. rewrite vlook_snoc_lt; [done|]. by eapply vlook_lt.
    - destruct (free_chain_head _ _ _ Hc (awf_chain r l Hal)) as (l' & -> & _).
      destruct (awf_dead r _ Hal (current_ r)) as [Hclt Hcdead];
        [apply list_elem_of_here|].
      unfold recycle_entity. cbn [fst snd]. split_and!.
      + done.
      + pose proof (awf_bound r _ Hal). lia.
      + apply is_alive_true. cbn [entities_]. by apply vlook_vset_eq.
      + intros x Hx. apply eq_true_iff_eq. rewrite !is_alive_true.
        cbn [entities_]. by rewrite vlook_vset_ne. }
  split_and!; try done.
  intros T. rewrite Hsame.
  destruct (get_component r T (fst (make_entity r))) as [w|] eqn:Hw; [|done].
  assert (has_component r T (fst (make_entity r)) = true) as Hhas
    by (apply has_component_get_component; eauto).
  apply (rwf_has_alive r Hwf) in Hhas. congruence.
Qed.

Lemma get_component_kill_self r T e :
  Registry_wf r → get_component (kill_entity r e) T e = None.
Proof.
  intros Hwf.
  destruct (get_component (kill_entity r e) T e) as [w|] eqn:Hw; [|done].
  pose proof (kill_entity_wf r e Hwf) as Hwf'.
  assert (has_component (kill_entity r e) T e = true) as Hhas
    by (apply has_component_get_component; eauto).
  apply (rwf_has_alive _ Hwf') in Hhas.
  rewrite is_alive_kill_self in Hhas; done.
Qed.

Lemma get_component_kill_other r T e x :
  Registry_wf r → x ≠ e →
  get_component (kill_entity r e) T x = get_component r T x.
Proof.
  intros Hwf Hx. destruct (is_alive r e) eqn:He; [|by rewrite kill_entity_dead].
  rewrite kill_entity_alive by done.
  rewrite !get_component_default.
  cbn [delete_all_components mark_as_death component_managers_].
  rewrite lookup_fmap.
  destruct (component_managers_ r !! T) as [m|] eqn:Hm; [|done]. simpl.
  unfold delete_component. apply get_data_unbind_ne; [|done].
  by eapply rwf_stores.
Qed.

(** [kill_entity] takes exactly the entity out of the live ones and
    leaves it without a component; the components of every other
    entity stay. *)
Theorem kill_entity_spares_the_others r e :
  Registry_wf r →
  (∀ x, is_alive (kill_entity r e) x
        = if decide (x = e) then false else is_alive r x)
  ∧ (∀ T, get_component (kill_entity r e) T e = None)
  ∧ ∀ T x, x ≠ e → get_component (kill_entity r e) T x = get_component r T x.
Proof.
  intros Hwf. split_and!.
  - intros x. case_decide as Hx.
    + subst. by apply is_alive_kill_self.
    + by apply is_alive_kill_other.
  - intros T. by apply get_component_kill_self.
  - intros T x Hx. by apply get_component_kill_other.
Qed.

(** A killed entity comes back from the next [make_entity] under the
    same id, alive and without any of its former components; the
    components of the other entities are still there. *)
Theorem recycled_entity_has_no_components r e :
  Registry_wf r → is_alive r e = true →
  fst (make_entity (kill_entity r e)) = e
  ∧ is_alive (snd (make_entity (kill_entity r e))) e = true
  ∧ (∀ T, get_component (snd (make_entity (kill_entity r e))) T e = None)
  ∧ ∀ T x, x ≠ e →
      get_component (snd (make_entity (kill_entity r e))) T x
      = get_component r T x.
Proof.
  intros Hwf He. destruct (rwf_alloc r Hwf) as [l Hal].
  destruct (make_entity_kill_entity r e (awf_bound r l Hal) He) as [Hid [Hents _]].
  assert (∀ T x, get_component (snd (make_entity (kill_entity r e))) T x
                 = get_component (kill_entity r e) T x) as Hsame.
  { intros T x. unfold get_component, get_component_manager.
    by rewrite make_entity_managers. }
  split_and!.
  - done.
  - rewrite (is_alive_ext _ r) by done. done.
  - intros T. rewrite Hsame. by apply get_component_kill_self.
  - intros T x Hx. rewrite Hsame. by apply get_component_kill_other.
Qed.

(** Killing an entity twice is killing it once. *)
Theorem kill_entity_twice r e :
  Registry_wf r → kill_entity (kill_entity r e) e = kill_entity r e.
Proof. intros Hwf. by apply kill_entity_dead, is_alive_kill_self. Qed.

(** Stores are made by [registry_bind] on a live entity and by nothing
    else, and no operation removes one; the operations other than
    [registry_bind] always have a result. *)
Theorem stores_are_made_by_bind r (o : reg_op V) :
  match o with Bind _ _ _ => True | _ => is_Some (reg_step r o) end
  ∧ ∀ r', reg_step r o = Some r' →
      dom (component_managers_ r')
      = dom (component_managers_ r)
        ∪ match o with
          | Bind T e _ => if is_alive r e then {[T]} else ∅
          | _ => ∅
          end.
Proof.
  split; [by destruct o|].
  intros r'. destruct o as [|e|T e v|T e]; simpl.
  - intros [= <-]. by rewrite make_entity_managers, (right_id_L ∅ (∪)).
  - intros [= <-]. rewrite (right_id_L ∅ (∪)). unfold kill_entity.
    destruct (is_alive r e); simpl; [|done]. by rewrite dom_fmap_L.
  - destruct (is_alive r e) eqn:He.
    + rewrite registry_bind_alive by done.
      destruct (bind _ e v) as [[m' res]|]; [simpl|done].
      intros [= <-]. simpl. rewrite dom_insert_L. apply (comm_L (∪)).
    + rewrite registry_bind_dead by done. simpl. intros [= <-].
      by rewrite (right_id_L ∅ (∪)).
  - intros [= <-]. rewrite (right_id_L ∅ (∪)).
    destruct (component_managers_ r !! T) as [m|] eqn:Hm.
    + rewrite (registry_unbind_some r T e m Hm). simpl. rewrite dom_insert_L.
      apply subseteq_union_1_L, singleton_subseteq_l, elem_of_dom. eauto.
    + by rewrite (registry_unbind_none r T e Hm).
Qed.

(** In every reachable state the chain that starts at [current_] runs
    through the dead slots of the entity array, each once, and ends
    with [MAX_ID]; the array has at most [MAX_ID] slots. *)
Theorem free_chain_is_the_dead_slots r :
  Reach r →
  size (entities_ r) ≤ MAX_ID
  ∧ ∃ l, free_chain (entities_ r) (current_ r) l
         ∧ NoDup l
         ∧ ∀ i, i ∈ l ↔ i < size (entities_ r) ∧ is_alive r i = false.
Proof.
  intros Hwf%Reach_wf. destruct (rwf_alloc r Hwf) as [l Hal].
  split; [apply Hal|]. exists l. split_and!; [apply Hal..|].
  intros i. split; [apply Hal|]. intros [Hi Hdead].
  destruct (awf_cover r l Hal i Hi) as [?|?]; [congruence|done].
Qed.

Lemma list_filter_false (l : list N) : List.filter (λ _, false) l = [].
Proof. by induction l. Qed.

Lemma set_difference_diag (l : list N) : set_difference l l = [].
Proof.
  induction l as [|a l IH]; [done|].
  rewrite set_difference_cons. by rewrite N.ltb_irrefl.
Qed.

(** Degenerate queries: without a must-have type nothing is selected; a
    must-not-have list equal to the must-have list leaves nothing; and
    one must-have type without exclusion selects what
    [entities_with_component] lists. *)
Theorem degenerate_queries r T W B :
  required_entities r [] B = []
  ∧ query r [] B = Some []
  ∧ required_entities r W W = []
  ∧ required_entities r [T] [] = entities_with_component r T.
Proof.
  split_and!; [done|done|apply set_difference_diag|].
  unfold required_entities, with_components, entities_with_component.
  cbn [is_empty negb]. rewrite set_difference_nil_r.
  unfold has_components, has_component. cbn [forallb].
  destruct (get_component_manager r T) as [m|].
  - apply filter_ext. intros a. apply andb_true_r.
  - apply list_filter_false.
Qed.

(** [get_components] returns one optional per requested type, and all
    of them are present exactly when the entity has all the types. *)
Theorem get_components_all_present r (Ts : list string) e :
  Registry_wf r →
  length (get_components r Ts e) = length Ts
  ∧ (Forall is_Some (get_components r Ts e) ↔ has_components r Ts e = true).
Proof.
  intros Hwf. unfold get_components. split; [by rewrite length_fmap|].
  rewrite Forall_fmap, has_components_true, Forall_forall.
  split; intros H T HT; apply (has_component_get_component r T e Hwf), H, HT.
Qed.
End RegistryData.

(** ** Type lists *)

Example type_list_tests :
  typing.reverse [typing.named "uint32_t"; typing.named "float"; typing.named "double"]
  = [typing.named "double"; typing.named "float"; typing.named "uint32_t"]
  ∧ typing.pop_back [typing.named "uint32_t"; typing.named "float"]
    = [typing.named "uint32_t"]
  ∧ typing.top [typing.named "uint32_t"; typing.named "float"]
    = Some (typing.named "float")
  ∧ typing.at_ [typing.named "double"; typing.named "uint32_t"; typing.named "float"] 1
    = typing.named "uint32_t"
  ∧ typing.transform [typing.named "double"; typing.named "float"] typing.add_optional
    = [typing.optional (typing.named "double"); typing.optional (typing.named "float")].
Proof. repeat apply conj; reflexivity. Qed.

Lemma type_list_reverse_rev (List : list typing.type) :
  typing.reverse List = rev List.
Proof. induction List as [|Head Tail IH]; [done|]. simpl. by rewrite IH. Qed.

Lemma type_list_at_nth (List : list typing.type) (Index : nat) :
  typing.at_ List Index = nth Index List (typing.type_list_t []).
Proof.
  revert List. induction Index as [|Index IH]; intros List.
  - by destruct List.
  - destruct List as [|Head Tail]; simpl.
    + rewrite IH. by destruct Index.
    + apply IH.
Qed.

Lemma type_list_transform_map (List : list typing.type) MetaFun :
  typing.transform List MetaFun = map MetaFun List.
Proof. induction List as [|Head Tail IH]; [done|]. simpl. by rewrite IH. Qed.

(** [reverse] reverses: it is its own inverse, keeps the size and puts
    the type at [Index] at the mirrored index. *)
Theorem type_list_reverse (List : list typing.type) :
  typing.reverse (typing.reverse List) = List
  ∧ typing.size (typing.reverse List) = typing.size List
  ∧ ∀ Index, (Index < typing.size List)%nat →
      typing.at_ (typing.reverse List) Index
      = typing.at_ List (typing.size List - 1 - Index).
Proof.
  rewrite !type_list_reverse_rev. split_and!.
  - apply rev_involutive.
  - unfold typing.size. apply length_rev.
  - intros Index HIndex. unfold typing.size in *.
    rewrite !type_list_at_nth, rev_nth by done. f_equal. lia.
Qed.

(** [pop_back] undoes [push_back], gives the empty list on the empty
    list, and on any other list takes off the type that [top] names. *)
Theorem type_list_pop_back (List : list typing.type) (NewType : typing.type) :
  typing.pop_back (typing.push_back List NewType) = List
  ∧ typing.top (typing.push_back List NewType) = Some NewType
  ∧ typing.pop_back [] = []
  ∧ ∀ T, typing.top List = Some T →
         typing.push_back (typing.pop_back List) T = List.
Proof.
  assert (∀ L T, typing.pop_back (typing.push_back L T) = L) as Hpop.
  { intros L T. unfold typing.pop_back, typing.push_back.
    rewrite !type_list_reverse_rev, rev_unit. simpl.
    apply rev_involutive. }
  assert (∀ L T, typing.top (typing.push_back L T) = Some T) as Htop.
  { intros L T. unfold typing.top, typing.push_back.
    destruct (L ++ [T]) as [|Head Tail] eqn:HL; [by destruct L|].
    rewrite <- HL, type_list_at_nth, length_app. simpl.
    replace (length L + 1 - 1)%nat with (length L) by lia.
    by rewrite app_nth2, Nat.sub_diag by lia. }
  split_and!; [done..|].
  intros T HT. destruct (exists_last (l := List)) as (L & T' & ->).
  { intros ->. done. }
  change (L ++ [T']) with (typing.push_back L T') in *.
  rewrite Htop in HT. simplify_eq. by rewrite Hpop.
Qed.

(** [at_] gives the type at the index, and the empty type list past the
    end; [front] is index 0 and, on a list that is not empty, [top] is
    the last index and the [front] of the reversed list. *)
Theorem type_list_at (List : list typing.type) :
  (∀ Index T, List !! Index = Some T → typing.at_ List Index = T)
  ∧ (∀ Index, (typing.size List ≤ Index)%nat →
              typing.at_ List Index = typing.type_list_t [])
  ∧ (List ≠ [] →
     typing.top List = Some (typing.front (typing.reverse List))).
Proof.
  split_and!.
  - intros Index T HT. rewrite type_list_at_nth.
    by apply nth_lookup_Some with (d := typing.type_list_t []) in HT.
  - intros Index HIndex. rewrite type_list_at_nth. by apply nth_overflow.
  - intros Hne. destruct (exists_last Hne) as (L & T & ->).
    rewrite type_list_reverse_rev, rev_unit. simpl.
    unfold typing.top. destruct (L ++ [T]) as [|Head Tail] eqn:HL; [by destruct L|].
    rewrite <- HL, type_list_at_nth, length_app. simpl.
    replace (length L + 1 - 1)%nat with (length L) by lia.
    by rewrite app_nth2, Nat.sub_diag by lia.
Qed.

(** [transform] applies the meta function to every type, in place; so
    [Components] is the tuple of the optional references and the
    elements of a [QueryResult] are tuples of the references, one field
    per type of the list. *)
Theorem type_list_transform (List : list typing.type) MetaFun :
  typing.size (typing.transform List MetaFun) = typing.size List
  ∧ (∀ Index T, List !! Index = Some T →
        typing.at_ (typing.transform List MetaFun) Index = MetaFun T)
  ∧ Components List
    = typing.tuple
        ((λ T, typing.optional (typing.reference_wrapper T)) <$> List)
  ∧ QueryResult List
    = typing.vector (typing.tuple (typing.reference_wrapper <$> List)).
Proof.
  split_and!.
  - rewrite type_list_transform_map. unfold typing.size. apply length_map.
  - intros Index T HT. rewrite type_list_transform_map, type_list_at_nth.
    apply nth_lookup_Some with (d := typing.type_list_t []).
    change (map MetaFun List) with (MetaFun <$> List).
    by rewrite list_lookup_fmap, HT.
  - unfold Components, typing.cast. rewrite !type_list_transform_map.
    f_equal. rewrite map_map. done.
  - unfold QueryResult, typing.cast. by rewrite type_list_transform_map.
Qed.

(** ** The selection of a query with at most one excluded type *)

Section QuerySelection.
Context {V : Type}.
Implicit Types (r : Registry V) (e : N) (T : string) (W B : list string).

(** In a reachable state, a query whose must-not-have list has at most
    one type selects, in strictly ascending order, exactly the live
    entities that have every must-have type and not the excluded one;
    it selects nothing when the must-have list is empty. *)
Theorem query_selection_one_exclusion r W B :
  Reach r → (length B ≤ 1)%nat →
  StronglySorted N.lt (required_entities r W B)
  ∧ ∀ e, e ∈ required_entities r W B ↔
         W ≠ [] ∧ is_alive r e = true
         ∧ (∀ T, T ∈ W → has_component r T e = true)
         ∧ (∀ T, T ∈ B → has_component r T e = false).
Proof.
  intros Hwf%Reach_wf HB.
  destruct (required_entities_spec r W B Hwf) as [Hsorted Hmem].
  split; [done|]. intros e. rewrite Hmem, has_components_true.
  assert (¬ (B ≠ [] ∧ has_components r B e = true)
          ↔ ∀ T, T ∈ B → has_component r T e = false) as ->; [|done].
  destruct B as [|T0 [|T1 B]]; [| |simpl in HB; lia].
  - split; [|by intros _ [? _]]. intros _ T HT. by apply elem_of_nil in HT.
  - unfold has_components. cbn [forallb]. rewrite andb_true_r. split.
    + intros Hno T ->%list_elem_of_singleton.
      apply not_true_iff_false. intros Hhas. by apply Hno.
    + intros Hno [_ Hhas]. rewrite (Hno T0) in Hhas; [done|].
      apply list_elem_of_here.
Qed.
End QuerySelection.

(** ** Instances *)

Lemma scenario_wf : Registry_wf scenario.
Proof. apply Reach_wf, scenario_reach. Qed.

Lemma bind_then_get_data_witness :
  SparseSet_wf example_set ∧ 3 < MAX_ID ∧ 3 ≤ size (sparse_ example_set)
  ∧ ∃ s', bind example_set 3 "e"%string = Some (s', None)
          ∧ get_data s' 3 = Some "e"%string.
Proof.
  assert (3 < MAX_ID) as Hlt by reflexivity.
  assert (3 ≤ size (sparse_ example_set)) as Hle by (vm_compute; discriminate).
  destruct (bind_then_get_data _ 3 "e"%string example_set_wf Hlt Hle)
    as (s' & Hb & Hg & _).
  exact (conj example_set_wf (conj Hlt (conj Hle
    (ex_intro _ s' (conj Hb Hg))))).
Defined.

Lemma unbind_then_get_data_witness :
  SparseSet_wf example_set
  ∧ snd (unbind example_set 2) = get_data example_set 2.
Proof.
  exact (conj example_set_wf
    (proj1 (unbind_then_get_data _ 2 example_set_wf))).
Defined.

Lemma unbind_twice_witness :
  SparseSet_wf example_set
  ∧ unbind (fst (unbind example_set 2)) 2 = (fst (unbind example_set 2), None).
Proof. exact (conj example_set_wf (unbind_twice _ 2 example_set_wf)). Defined.

Lemma bind_unbind_restores_witness :
  SparseSet_wf example_set
  ∧ 0 < size (sparse_ example_set)
  ∧ has_data example_set 0 = false
  ∧ ∃ s', bind example_set 0 "z"%string = Some (s', None)
          ∧ unbind s' 0 = (example_set, Some "z"%string).
Proof.
  assert (0 < size (sparse_ example_set)) as Hin by reflexivity.
  assert (has_data example_set 0 = false) as Hno by reflexivity.
  exact (conj example_set_wf (conj Hin (conj Hno
    (bind_unbind_restores _ 0 "z"%string example_set_wf Hin Hno)))).
Defined.

Lemma dense_lists_the_bound_keys_witness :
  SparseSet_wf example_set ∧ NoDup (dense_ example_set).
Proof.
  exact (conj example_set_wf
    (proj1 (dense_lists_the_bound_keys _ example_set_wf))).
Defined.

Lemma sizes_after_operation_witness :
  SparseSet_wf example_set ∧ 3 < MAX_ID
  ∧ key_in_reach example_set (OpBind 3 "g"%string)
  ∧ ∃ s', apply_op example_set (OpBind 3 "g"%string) = Some s'
          ∧ size (sparse_ s') = N.max (size (sparse_ example_set)) (3 + 1).
Proof.
  assert (3 < MAX_ID) as Hlt by reflexivity.
  assert (key_in_reach example_set (OpBind 3 "g"%string)) as Hk
    by (left; vm_compute; discriminate).
  destruct (sizes_after_operation _ (OpBind 3 "g"%string) example_set_wf Hlt Hk)
    as (s' & Hs' & Hsz & _).
  exact (conj example_set_wf (conj Hlt (conj Hk
    (ex_intro _ s' (conj Hs' Hsz))))).
Defined.

Lemma null_key_ops_in_reach :
  keys_in_reach (@empty_set string)
    [OpBind 0 "a"%string; OpBind MAX_ID "n"%string; OpUnbind MAX_ID].
Proof.
  split; [left; vm_compute; discriminate|]. intros s1 [= <-].
  split; [by right|]. intros s2 [= <-].
  split; [exact I|]. intros s3 _. exact I.
Qed.

Lemma null_key_never_has_data_witness :
  keys_in_reach (@empty_set string)
    [OpBind 0 "a"%string; OpBind MAX_ID "n"%string; OpUnbind MAX_ID]
  ∧ ∃ s, run_ops [OpBind 0 "a"%string; OpBind MAX_ID "n"%string;
                  OpUnbind MAX_ID] = Some s
         ∧ has_data s MAX_ID = false.
Proof.
  destruct (null_key_never_has_data _ null_key_ops_in_reach)
    as (s & Hs & _ & Hno & _).
  exact (conj null_key_ops_in_reach (ex_intro _ s (conj Hs Hno))).
Defined.

Lemma example_set_ops_in_reach : keys_in_reach empty_set example_set_ops.
Proof.
  split; [left; vm_compute; discriminate|]. intros s1 [= <-].
  split; [left; vm_compute; discriminate|]. intros s2 [= <-].
  split; [left; vm_compute; discriminate|]. intros s3 [= <-].
  split; [exact I|]. intros s4 _. exact I.
Qed.

Lemma invariants_along_a_run_witness :
  keys_in_reach empty_set example_set_ops
  ∧ ∃ s, run_ops (take 3 example_set_ops) = Some s ∧ sparse_dense_inverse s.
Proof.
  exact (conj example_set_ops_in_reach
    (invariants_along_a_run example_set_ops 3 example_set_ops_in_reach)).
Defined.

Lemma bind_result_exactly_in_reach_witness :
  5 < MAX_ID
  ∧ (is_Some (bind example_set 5 "e"%string) ↔ 5 ≤ size (sparse_ example_set))
  ∧ bind_overrun example_set 5 = 5 - size (sparse_ example_set).
Proof.
  assert (5 < MAX_ID) as Hlt by reflexivity.
  pose proof (bind_result_exactly_in_reach example_set 5 "e"%string Hlt)
    as (Hiff & Hover & _).
  exact (conj Hlt (conj Hiff Hover)).
Defined.

Lemma registry_bind_then_get_component_witness :
  Registry_wf scenario
  ∧ is_alive scenario 1 = true
  ∧ 1 ≤ size (sparse_ (default empty_set
                         (component_managers_ scenario !! "Char"%string)))
  ∧ ∃ r', registry_bind scenario "Char" 1 "c1"%string = Some (r', None)
          ∧ get_component r' "Char" 1 = Some "c1"%string.
Proof.
  assert (is_alive scenario 1 = true) as Halive by (vm_compute; reflexivity).
  assert (1 ≤ size (sparse_ (default empty_set
                 (component_managers_ scenario !! "Char"%string)))) as Hle
    by (vm_compute; discriminate).
  destruct (registry_bind_then_get_component _ "Char"%string 1
              "c1"%string scenario_wf Halive Hle) as (r' & Hb & Hg & _).
  exact (conj scenario_wf (conj Halive (conj Hle
    (ex_intro _ r' (conj Hb Hg))))).
Defined.

Lemma registry_unbind_then_get_component_witness :
  Registry_wf scenario
  ∧ snd (registry_unbind scenario "Vec2" 0) = get_component scenario "Vec2" 0.
Proof.
  exact (conj scenario_wf
    (proj1 (registry_unbind_then_get_component _ "Vec2"%string 0 scenario_wf))).
Defined.

Lemma make_entity_gives_a_fresh_entity_witness :
  Registry_wf recycling
  ∧ can_make recycling
  ∧ is_alive (snd (make_entity recycling)) (fst (make_entity recycling)) = true.
Proof.
  assert (can_make recycling) as Hcan
    by (left; vm_compute; discriminate).
  exact (conj recycling_wf (conj Hcan
    (proj1 (proj2 (proj2
       (make_entity_gives_a_fresh_entity _ recycling_wf Hcan)))))).
Defined.

Lemma kill_entity_spares_the_others_witness :
  Registry_wf scenario
  ∧ ∀ T x, x ≠ 0 →
      get_component (kill_entity scenario 0) T x = get_component scenario T x.
Proof.
  exact (conj scenario_wf
    (proj2 (proj2 (kill_entity_spares_the_others _ 0 scenario_wf)))).
Defined.

Lemma kill_entity_twice_witness :
  Registry_wf scenario
  ∧ kill_entity (kill_entity scenario 1) 1 = kill_entity scenario 1.
Proof. exact (conj scenario_wf (kill_entity_twice _ 1 scenario_wf)). Defined.

Lemma free_chain_is_the_dead_slots_witness :
  Reach recycling ∧ size (entities_ recycling) ≤ MAX_ID.
Proof.
  exact (conj recycling_reach
    (proj1 (free_chain_is_the_dead_slots _ recycling_reach))).
Defined.

Lemma get_components_all_present_witness :
  Registry_wf scenario
  ∧ (Forall is_Some (get_components scenario ["U32"; "Char"]%string 1)
     ↔ has_components scenario ["U32"; "Char"]%string 1 = true).
Proof.
  exact (conj scenario_wf
    (proj2 (get_components_all_present _ ["U32"; "Char"]%string 1 scenario_wf))).
Defined.

Lemma query_selection_one_exclusion_witness :
  Reach scenario
  ∧ (length ["Char"%string] ≤ 1)%nat
  ∧ StronglySorted N.lt
      (required_entities scenario ["U32"; "Vec2"]%string ["Char"%string]).
Proof.
  assert (length ["Char"%string] ≤ 1)%nat as HB by (simpl; lia).
  exact (conj scenario_reach (conj HB
    (proj1 (query_selection_one_exclusion _ ["U32"; "Vec2"]%string
              ["Char"%string] scenario_reach HB)))).
Defined.

Lemma recycled_entity_has_no_components_witness :
  Registry_wf scenario
  ∧ is_alive scenario 0 = true
  ∧ fst (make_entity (kill_entity scenario 0)) = 0
  ∧ ∀ T, get_component (snd (make_entity (kill_entity scenario 0))) T 0 = None.
Proof.
  assert (is_alive scenario 0 = true) as Halive
    by (vm_compute; reflexivity).
  pose proof (recycled_entity_has_no_components _ 0 scenario_wf Halive)
    as (Hid & _ & Hnone & _).
  exact (conj scenario_wf (conj Halive (conj Hid Hnone))).
Defined.
